(** * The SMTP session core of pyk/session (package [session])

    A shallow embedding of the snapshot of [session.go] that has the
    [SessionValidity] flags, the [Envelope] and the regular expressions
    for the MAIL and RCPT arguments, together with the properties of the
    command parser, the validators, the conversation state machine
    ([Session.Valid]) and the serve loop ([Session.Serve]).

    Go strings are byte sequences; they are modelled as [list ascii].
    The SMTP wire format is 7-bit ASCII, and the two functions of Go's
    [strings] package whose result depends on Unicode tables
    ([TrimSpace], [ToUpper]) are modelled by their ASCII behaviour:
    bytes from 128 up are neither white space nor letters.  The
    properties of the state machine and of the serve loop are proved
    from the verb of a line, whatever these two functions make of it;
    only [Verb_length] and the evaluations at literal lines depend on
    the ASCII model. *)

From Stdlib Require Import Ascii String Bool Arith NArith ZArith Lia List.
Import ListNotations.

Local Open Scope list_scope.

(** ** Byte strings *)

Definition str := list ascii.

(** A Go string literal. *)
Definition lit (s : string) : str := list_ascii_of_string s.
Arguments lit s%_string.

Definition CR : ascii := "013"%char.
Definition LF : ascii := "010"%char.

(** The two-byte line terminator, written "\r\n" in the source. *)
Definition CRLF : str := [CR; LF].

(** [==] on Go strings. *)
Fixpoint str_eqb (a b : str) : bool :=
  match a, b with
  | [], [] => true
  | x :: a', y :: b' => Ascii.eqb x y && str_eqb a' b'
  | _, _ => false
  end.

Definition in_range (lo hi c : ascii) : bool :=
  (N_of_ascii lo <=? N_of_ascii c)%N && (N_of_ascii c <=? N_of_ascii hi)%N.
Arguments in_range (lo hi c)%_char.

(** ** Go's [strings] package, as far as the session uses it *)

Module Strings.

(** The table [asciiSpace] of package strings: tab, LF, VT, FF, CR, space. *)
Definition asciiSpace (c : ascii) : bool :=
  in_range "009" "013" c || Ascii.eqb c " "%char.

Fixpoint TrimLeftSpace (s : str) : str :=
  match s with
  | [] => []
  | c :: s' => if asciiSpace c then TrimLeftSpace s' else s
  end.

Definition TrimRightSpace (s : str) : str := rev (TrimLeftSpace (rev s)).

(** [strings.TrimSpace]: the leading white space is cut first, then the
    trailing white space of what is left. *)
Definition TrimSpace (s : str) : str := TrimRightSpace (TrimLeftSpace s).

Definition upper (c : ascii) : ascii :=
  if in_range "a" "z" c then ascii_of_N (N_of_ascii c - 32) else c.

(** [strings.ToUpper]. *)
Definition ToUpper (s : str) : str := map upper s.

(** [strings.HasPrefix]. *)
Fixpoint HasPrefix (s prefix : str) {struct prefix} : bool :=
  match prefix, s with
  | [], _ => true
  | p :: prefix', c :: s' => Ascii.eqb c p && HasPrefix s' prefix'
  | _ :: _, [] => false
  end.

(** [strings.HasSuffix]:
    [len(s) >= len(suffix) && s[len(s)-len(suffix):] == suffix]. *)
Definition HasSuffix (s suffix : str) : bool :=
  (length suffix <=? length s) &&
  str_eqb (skipn (length s - length suffix) s) suffix.

(** The position of the first occurrence of [sep] in [s], if any. *)
Fixpoint index_of (s sep : str) : option nat :=
  if HasPrefix s sep then Some 0
  else match s with
       | [] => None
       | _ :: s' => option_map S (index_of s' sep)
       end.

(** [strings.Index]: [-1] when [sep] does not occur in [s]. *)
Definition Index (s sep : str) : Z :=
  match index_of s sep with
  | Some n => Z.of_nat n
  | None => (-1)%Z
  end.

(** [strings.Split] for a separator of one byte (the session only ever
    splits on [" "]): the pieces between the separators, empty pieces
    kept, so the result is never empty. *)
Fixpoint Split (s : str) (sep : ascii) : list str :=
  match s with
  | [] => [[]]
  | c :: s' =>
      if Ascii.eqb c sep then [] :: Split s' sep
      else match Split s' sep with
           | piece :: rest => (c :: piece) :: rest
           | [] => [[c]]
           end
  end.

End Strings.

(** ** Go's [regexp] package, as far as the session uses it

    The four patterns of the source use literals, the classes
    [[a-zA-Z0-9._-]] and [[a-zA-Z]], [.], concatenation, and the greedy
    operators [*], [+], [?] and [{2,}].  Every byte a pattern names is
    ASCII, so matching bytes and matching UTF-8 runes agree. *)

Module Regexp.

Inductive regex : Type :=
| Eps : regex
| Cls : (ascii -> bool) -> regex
| Cat : regex -> regex -> regex
| Alt : regex -> regex -> regex
| Star : regex -> regex.

(** A literal byte. *)
Definition Chr (c : ascii) : regex := Cls (Ascii.eqb c).
Arguments Chr c%_char.

(** [.]: any byte but the line feed. *)
Definition Dot : regex := Cls (fun c => negb (Ascii.eqb c LF)).

(** [r+], [r?] and [r{2,}], all greedy. *)
Definition Plus (r : regex) : regex := Cat r (Star r).
Definition Quest (r : regex) : regex := Alt r Eps.
Definition AtLeast2 (r : regex) : regex := Cat r (Cat r (Star r)).

(** The language of a pattern. *)
Inductive matches : regex -> str -> Prop :=
| MEps : matches Eps []
| MCls p c : p c = true -> matches (Cls p) [c]
| MCat r1 r2 s1 s2 :
    matches r1 s1 -> matches r2 s2 -> matches (Cat r1 r2) (s1 ++ s2)
| MAltL r1 r2 s : matches r1 s -> matches (Alt r1 r2) s
| MAltR r1 r2 s : matches r2 s -> matches (Alt r1 r2) s
| MStar0 r : matches (Star r) []
| MStarS r s1 s2 :
    matches r s1 -> matches (Star r) s2 -> matches (Star r) (s1 ++ s2).

Section Matcher.
Context {A : Type}.

(** One greedy loop of [r*]: [m] matches the body; an iteration has to
    consume input, so [length s] rounds are enough. *)
Fixpoint star_loop (m : str -> (str -> option A) -> option A)
    (k : str -> option A) (n : nat) (s : str) : option A :=
  match n with
  | O => k s
  | S n' =>
      match m s (fun s' => if length s' <? length s
                           then star_loop m k n' s' else None) with
      | Some x => Some x
      | None => k s
      end
  end.

(** The backtracking matcher at the start of [s]: alternatives are tried
    in the order of the pattern, as Go's leftmost-first matching does;
    [k] receives what is left of [s] after the match. *)
Fixpoint run (r : regex) (s : str) (k : str -> option A) : option A :=
  match r with
  | Eps => k s
  | Cls p =>
      match s with
      | c :: s' => if p c then k s' else None
      | [] => None
      end
  | Cat r1 r2 => run r1 s (fun s' => run r2 s' k)
  | Alt r1 r2 =>
      match run r1 s k with
      | Some x => Some x
      | None => run r2 s k
      end
  | Star r1 => star_loop (run r1) k (length s) s
  end.

End Matcher.

(** Does a match of [re] start at the head of [s]? *)
Definition match_here (re : regex) (s : str) : bool :=
  match run re s (fun _ => Some tt) with
  | Some _ => true
  | None => false
  end.

(** [Regexp.MatchString]: is there a match anywhere in [s]? *)
Fixpoint MatchString (re : regex) (s : str) : bool :=
  match_here re s ||
  match s with
  | [] => false
  | _ :: s' => MatchString re s'
  end.

(** [Regexp.FindString]: the text of the leftmost match, the empty
    string when there is none. *)
Fixpoint FindString (re : regex) (s : str) : str :=
  match run re s (fun rest => Some rest) with
  | Some rest => firstn (length s - length rest) s
  | None =>
      match s with
      | [] => []
      | _ :: s' => FindString re s'
      end
  end.

End Regexp.

Import Strings Regexp.

(** ** Replies, patterns and errors of package [session] *)

Definition REPLY_220 : str := lit "220 <host> Maillennia ESMTP ready".
Definition REPLY_221 : str := lit "221 2.0.0 Bye".
Definition REPLY_250 : str := lit "250 2.0.0 OK".
Definition REPLY_250_RCPT : str := lit "250 2.1.5 OK".
Definition REPLY_354 : str := lit "354 Go ahead".
Definition REPLY_421 : str := lit "421 4.4.2 Bad connection".
Definition REPLY_453 : str :=
  lit "453 5.3.2 System not accepting network message".
Definition REPLY_503 : str := lit "503 5.5.1 Invalid command".

(** The class [[a-zA-Z0-9._-]]. *)
Definition addr_char (c : ascii) : bool :=
  in_range "a" "z" c || in_range "A" "Z" c || in_range "0" "9" c ||
  Ascii.eqb c "."%char || Ascii.eqb c "_"%char || Ascii.eqb c "-"%char.

(** The class [[a-zA-Z]]. *)
Definition letter (c : ascii) : bool :=
  in_range "a" "z" c || in_range "A" "Z" c.

(** [(?:[a-zA-Z0-9._-]+\.)+[a-zA-Z]{2,}], the part of three of the
    patterns that follows an [@]. *)
Definition domain : regex :=
  Cat (Plus (Cat (Plus (Cls addr_char)) (Chr ".")))
      (AtLeast2 (Cls letter)).

(** [<(.+)>] *)
Definition rArgSyntax : regex :=
  Cat (Chr "<") (Cat (Plus Dot) (Chr ">")).

(** [[a-zA-Z0-9._-]+@(?:[a-zA-Z0-9._-]+\.)+[a-zA-Z]{2,}] *)
Definition rMailAddr : regex :=
  Cat (Plus (Cls addr_char)) (Cat (Chr "@") domain).

(** [<(?:@(?:[a-zA-Z0-9._-]+\.)+[a-zA-Z]{2,},?)*:?[a-zA-Z0-9._-]+@(?:[a-zA-Z0-9._-]+\.)+[a-zA-Z]{2,}>] *)
Definition rRcptArg : regex :=
  Cat (Chr "<")
      (Cat (Star (Cat (Chr "@") (Cat domain (Quest (Chr ",")))))
           (Cat (Quest (Chr ":"))
                (Cat (Plus (Cls addr_char))
                     (Cat (Chr "@") (Cat domain (Chr ">")))))).

(** [<[a-zA-Z0-9._-]+@(?:[a-zA-Z0-9._-]+\.)+[a-zA-Z]{2,}>] *)
Definition rMailArg : regex :=
  Cat (Chr "<")
      (Cat (Plus (Cls addr_char))
           (Cat (Chr "@") (Cat domain (Chr ">")))).

(** The package's error values. *)
Inductive error : Type :=
| ehloFirstErr
| badSeqErr
| syntaxErr
| invalidCommandArgErr
| invalidRcptEmailErr
| emailNotExistErr.

(** [err.Error()]: the text of an error value. *)
Definition Error (e : error) : str :=
  match e with
  | ehloFirstErr => lit "503 5.5.1 HELO/EHLO first"
  | badSeqErr => lit "503 5.5.1 Bad sequence of commands"
  | syntaxErr => lit "555 5.5.2 Syntax error"
  | invalidCommandArgErr => lit "501 5.5.4 Invalid command arguments"
  | invalidRcptEmailErr =>
      lit "553-5.1.2 Invalid recipient email address." ++ CRLF ++
      lit "553-5.1.2 Please Check for any spelling errors" ++ CRLF ++
      lit "553-5.1.2 make sure before & after recipient email address" ++ CRLF ++
      lit "553 5.1.2 doesn't contain periods, spaces, or other punctuation."
  | emailNotExistErr =>
      lit "550-5.1.1 Recipient email address doesn't exist." ++ CRLF ++
      lit "550-5.1.1 Please Check for any spelling errors" ++ CRLF ++
      lit "550-5.1.1 make sure before & after recipient email address" ++ CRLF ++
      lit "550 5.1.1 doesn't contain periods, spaces, or other punctuation."
  end.

(** The error kinds of the specification's taxonomy: a sequencing error
    is either of the two 503 errors ("greeting required" and "sender
    required"). *)
Inductive error_kind : Type :=
| SyntaxError
| InvalidArguments
| BadSequence
| SemanticAddressError.

Definition kind_of (e : error) : error_kind :=
  match e with
  | ehloFirstErr | badSeqErr => BadSequence
  | syntaxErr => SyntaxError
  | invalidCommandArgErr => InvalidArguments
  | invalidRcptEmailErr | emailNotExistErr => SemanticAddressError
  end.

(** A Go result [(bool, error)]; [None] is the [nil] error. *)
Definition result : Type := bool * option error.

(** ** The command parser and the validators *)

(** [type command string] *)
Definition command := str.

(** [command.Verb] *)
Definition Verb (c : command) : str :=
  if str_eqb c CRLF then CRLF
  else
    let verb := TrimSpace c in
    if length verb =? 4 then ToUpper verb
    else if 4 <? length verb then
      let i := Index verb (lit ":") in
      if (0 <? i)%Z then ToUpper (firstn (Z.to_nat (i + 1)) verb)
      else
        let s := Split verb " " in
        ToUpper (nth 0 s [])
    else [].

(** [command.Arg].  The slice [line[i:]] is in range: with [ToUpper]
    keeping the length of an ASCII string, the verb is never longer
    than the line (lemma [Verb_length] below). *)
Definition Arg (c : command) : str :=
  if str_eqb c CRLF then []
  else
    let line := c in
    let i := length (Verb c) in
    TrimSpace (skipn i line).

(** [command.ValidLine] *)
Definition ValidLine (c : command) : result :=
  if str_eqb c [] then (false, Some syntaxErr)
  else if negb (HasSuffix c CRLF) then (false, Some syntaxErr)
  else (true, None).

(** [command.ValidHello] *)
Definition ValidHello (c : command) : result :=
  let args := Split (Arg c) " " in
  if str_eqb (Arg c) [] || (1 <? length args)
  then (false, Some invalidCommandArgErr)
  else (true, None).

(** [command.ValidMail] *)
Definition ValidMail (c : command) : result :=
  if str_eqb (Arg c) [] then (false, Some syntaxErr)
  else if negb (MatchString rMailArg (Arg c))
       then (false, Some invalidCommandArgErr)
       else (true, None).

(** [command.ValidRcpt] *)
Definition ValidRcpt (c : command) : result :=
  if str_eqb (Arg c) [] || negb (MatchString rArgSyntax (Arg c))
  then (false, Some syntaxErr)
  else if negb (MatchString rRcptArg (Arg c))
       then (false, Some invalidRcptEmailErr)
       else (true, None).

(** [command.ValidData] *)
Definition ValidData (c : command) : result :=
  if negb (str_eqb (Arg c) []) then (false, Some syntaxErr)
  else (true, None).

(** [command.ValidQuit] *)
Definition ValidQuit (c : command) : result :=
  if str_eqb (Verb c) (lit "QUIT") && negb (str_eqb (Arg c) [])
  then (false, Some invalidCommandArgErr)
  else (true, None).

(** [command.EmailAddress] *)
Definition EmailAddress (c : command) : str :=
  FindString rMailAddr (Arg c).

(** ** The session *)

(** [type Envelope struct] *)
Record Envelope : Type := mkEnvelope {
  OriginatorAddress : str;
  RecipientAddress : list str;
  Extension : str
}.

(** [NewEnvelope]: the zero value of the struct. *)
Definition NewEnvelope : Envelope := mkEnvelope [] [] [].

(** [type SessionValidity struct] *)
Record SessionValidity : Type := mkValidity {
  HeloFirst : bool;
  MailFirst : bool;
  RcptFirst : bool
}.

(** What lies outside the session: the peer behind the connection and
    the server that owns the shutdown channel.  [ReadString n] is the
    outcome of the [n]-th call of [s.Reader.ReadString('\n')] (the line
    and whether [err != nil]), [FlushFails n] tells whether the [n]-th
    [Flush] of the reply writer reports an error, and [Signal n] whether
    the [n]-th poll of [s.ChanClosed] receives. *)
Record Env : Type := mkEnv {
  ReadString : nat -> str * bool;
  FlushFails : nat -> bool;
  Signal : nat -> bool
}.

(** bufio's contract for [ReadString]: it "returns err != nil if and
    only if the returned data does not end in delim". *)
Definition ReadString_contract (env : Env) : Prop :=
  forall n, snd (ReadString env n) = negb (HasSuffix (fst (ReadString env n)) [LF]).

(** [type Session struct]: the validity flags, and the session's view of
    its connection, writer, channel, log and wait group: how many lines
    were read, how many flushes and polls were made, the replies that
    reached the peer, the lines written to the log, how often
    [Conn.Close] and [Wg.Done] were called. *)
Record Session : Type := mkSession {
  Validity : SessionValidity;
  Reads : nat;
  Flushes : nat;
  Polls : nat;
  Sent : list str;
  Logged : list str;
  ConnClosed : nat;
  WgDone : nat
}.

(** [New] *)
Definition New : Session :=
  mkSession (mkValidity false false false) 0 0 0 [] [] 0 0.

Definition with_Validity (s : Session) (v : SessionValidity) : Session :=
  mkSession v (Reads s) (Flushes s) (Polls s) (Sent s) (Logged s)
            (ConnClosed s) (WgDone s).

(** [log.Println]: a line for the server's own log, not for the peer. *)
Definition Println (s : Session) (text : str) : Session :=
  mkSession (Validity s) (Reads s) (Flushes s) (Polls s) (Sent s)
            (Logged s ++ [text]) (ConnClosed s) (WgDone s).

(** [Session.SetHeloFirst] *)
Definition SetHeloFirst (s : Session) (heloFirst : bool) : Session :=
  with_Validity s
    (mkValidity heloFirst (MailFirst (Validity s)) (RcptFirst (Validity s))).

(** [Session.SetMailFirst] *)
Definition SetMailFirst (s : Session) (mailFirst : bool) : Session :=
  with_Validity s
    (mkValidity (HeloFirst (Validity s)) mailFirst (RcptFirst (Validity s))).

(** [Session.SetRcptFirst] *)
Definition SetRcptFirst (s : Session) (rcptFirst : bool) : Session :=
  with_Validity s
    (mkValidity (HeloFirst (Validity s)) (MailFirst (Validity s)) rcptFirst).

(** [Session.Close]: [s.Wg.Done()], then [s.Conn.Close()]. *)
Definition Close (s : Session) : Session :=
  mkSession (Validity s) (Reads s) (Flushes s) (Polls s) (Sent s)
            (Logged s) (S (ConnClosed s)) (S (WgDone s)).

(** Does the result carry an error ([err != nil])? *)
Definition failed (r : result) : option error := snd r.

(** [Session.Valid]: the result and the session after the call. *)
Definition Valid (s : Session) (c : command) : result * Session :=
  match failed (ValidLine c) with
  | Some err => ((false, Some err), s)
  | None =>
  if str_eqb (Verb c) (lit "EHLO") || str_eqb (Verb c) (lit "HELO") then
    match failed (ValidHello c) with
    | Some err => ((false, Some err), s)
    | None => ((true, None), SetHeloFirst s true)
    end
  else if str_eqb (Verb c) (lit "MAIL FROM:") then
    if negb (HeloFirst (Validity s)) then ((false, Some ehloFirstErr), s)
    else
      match failed (ValidMail c) with
      | Some err => ((false, Some err), s)
      | None => ((true, None), SetMailFirst s true)
      end
  else if str_eqb (Verb c) (lit "RCPT TO:") then
    if negb (HeloFirst (Validity s)) then ((false, Some ehloFirstErr), s)
    else if negb (MailFirst (Validity s)) then ((false, Some badSeqErr), s)
    else
      match failed (ValidRcpt c) with
      | Some err => ((false, Some err), s)
      | None => ((true, None), SetRcptFirst s true)
      end
  else if str_eqb (Verb c) (lit "DATA") then
    if negb (HeloFirst (Validity s)) then ((false, Some ehloFirstErr), s)
    else if negb (MailFirst (Validity s)) || negb (RcptFirst (Validity s))
    then ((false, Some badSeqErr), s)
    else
      match failed (ValidData c) with
      | Some err => ((false, Some err), s)
      | None => ((true, None), s)
      end
  else if str_eqb (Verb c) (lit "QUIT") then
    match failed (ValidQuit c) with
    | Some err => ((false, Some err), s)
    | None => ((true, None), s)
    end
  else ((true, None), s)
  end.

(** [Reply.Transmit]: [str] and the terminator go to the writer, which is
    flushed; the result tells whether an error is returned.  A reply
    whose flush failed is not counted as sent. *)
Definition Transmit (env : Env) (s : Session) (text : str) : bool * Session :=
  let err := FlushFails env (Flushes s) in
  (err,
   mkSession (Validity s) (Reads s) (S (Flushes s)) (Polls s)
             (if err then Sent s else Sent s ++ [text ++ CRLF])
             (Logged s) (ConnClosed s) (WgDone s)).

(** [Reply.TransmitErr] *)
Definition TransmitErr (env : Env) (s : Session) (err : error) : bool * Session :=
  Transmit env s (Error err).

(** [Session.CheckChanClosed]: a non-blocking receive; when it succeeds
    the 453 reply is sent and [true] is returned whether or not that
    reply could be written. *)
Definition CheckChanClosed (env : Env) (s : Session) : bool * Session :=
  let received := Signal env (Polls s) in
  let s := mkSession (Validity s) (Reads s) (Flushes s) (S (Polls s))
                     (Sent s) (Logged s) (ConnClosed s) (WgDone s) in
  if received then (true, snd (Transmit env s REPLY_453))
  else (false, s).

(** ** The serve loop *)

(** How one round of the [for] loop ends: with the next round, or with a
    [return] from [Serve]. *)
Inductive flow : Type := Continue | Return.

Definition round : Type := flow * Session * Envelope.

(** [err := s.Reply.Transmit(text); if err != nil { return }] at the end
    of a [case]. *)
Definition reply (env : Env) (s : Session) (envl : Envelope) (text : str) : round :=
  let (err, s) := Transmit env s text in
  (if err then Return else Continue, s, envl).

(** The [switch c.Verb()] of [Serve]. *)
Definition dispatch (env : Env) (s : Session) (envl : Envelope) (c : command) : round :=
  let verb := Verb c in
  if str_eqb verb (lit "HELO") then reply env s envl REPLY_250
  else if str_eqb verb (lit "EHLO") then reply env s envl REPLY_250
  else if str_eqb verb (lit "MAIL FROM:") then
    let envl := mkEnvelope (EmailAddress c) (RecipientAddress envl)
                           (Extension envl) in
    reply env s envl REPLY_250
  else if str_eqb verb (lit "RCPT TO:") then
    let envl := mkEnvelope (OriginatorAddress envl)
                           (RecipientAddress envl ++ [EmailAddress c])
                           (Extension envl) in
    reply env s envl REPLY_250_RCPT
  else if str_eqb verb (lit "DATA") then reply env s envl REPLY_354
  else if str_eqb verb CRLF then (Continue, Println s (lit "enter"), envl)
  else if str_eqb verb (lit "RSET") then (Continue, Println s verb, envl)
  else if str_eqb verb (lit "QUIT") then
    (Return, snd (Transmit env s REPLY_221), envl)
  else if str_eqb verb (lit "NOOP") then (Continue, Println s verb, envl)
  else if str_eqb verb (lit "HELP") then (Continue, Println s verb, envl)
  else if str_eqb verb (lit "EXPN") then (Continue, Println s verb, envl)
  else if str_eqb verb (lit "VRFY") then (Continue, Println s verb, envl)
  else reply env s envl REPLY_503.

(** The call of [ReadString] at the head of a round. *)
Definition read_line (env : Env) (s : Session) : str * bool * Session :=
  (ReadString env (Reads s),
   mkSession (Validity s) (S (Reads s)) (Flushes s) (Polls s) (Sent s)
             (Logged s) (ConnClosed s) (WgDone s)).

(** One round of the [for] loop of [Serve]. *)
Definition iteration (env : Env) (s : Session) (envl : Envelope) : round :=
  let '(line, rerr, s) := read_line env s in
  let (werr, s) := if rerr then Transmit env s REPLY_453 else (false, s) in
  if werr then (Return, s, envl)
  else
    let (chanClosed, s) := CheckChanClosed env s in
    if chanClosed then (Return, s, envl)
    else
      let c : command := line in
      let '(valid, err, s) := Valid s c in
      match valid, err with
      | false, Some err =>
          let (e, s) := TransmitErr env s err in
          (if e then Return else Continue, s, envl)
      | _, _ => dispatch env s envl c
      end.

(** The [for] loop, for at most [fuel] rounds: [None] when the loop is
    still running after them. *)
Fixpoint loop (fuel : nat) (env : Env) (s : Session) (envl : Envelope)
  : option (Session * Envelope) :=
  match fuel with
  | O => None
  | S fuel' =>
      match iteration env s envl with
      | (Return, s', envl') => Some (s', envl')
      | (Continue, s', envl') => loop fuel' env s' envl'
      end
  end.

(** The body of [Serve] below its [defer]: the greeting, the fresh
    envelope, the loop. *)
Definition serve_body (fuel : nat) (env : Env) (s : Session)
  : option (Session * Envelope) :=
  let (err, s) := Transmit env s REPLY_220 in
  if err then Some (s, NewEnvelope)
  else
    let envl := NewEnvelope in
    loop fuel env s envl.

(** [Session.Serve]: [defer s.Close()] runs when the body returns. *)
Definition Serve (fuel : nat) (env : Env) (s : Session)
  : option (Session * Envelope) :=
  match serve_body fuel env s with
  | Some (s', envl) => Some (Close s', envl)
  | None => None
  end.

(** * The vocabulary of the properties *)

(** [tok] is what stands in [t] before its first space: all of [t] when
    it has no space. *)
Definition first_token (t tok : str) : Prop :=
  ~ In " "%char tok /\ (t = tok \/ exists rest, t = tok ++ " "%char :: rest).

(** The argument has, somewhere, an address of the pattern [rMailAddr]
    between angle brackets. *)
Definition has_bracketed_address (a : str) : Prop :=
  exists pre addr post,
    a = pre ++ "<"%char :: addr ++ ">"%char :: post /\ matches rMailAddr addr.

(** The three parts of a round. *)
Definition round_flow (r : round) : flow := fst (fst r).
Definition round_session (r : round) : Session := snd (fst r).
Definition round_envelope (r : round) : Envelope := snd r.

(** The precondition chain of the flags. *)
Definition chain (v : SessionValidity) : Prop :=
  (RcptFirst v = true -> MailFirst v = true) /\
  (MailFirst v = true -> HeloFirst v = true).

(** The states a session can be in: it starts as [New], it is taken
    through [Valid], and everything else that [Serve] does to it
    (reading, sending, polling, logging, closing) leaves the flags
    alone. *)
Inductive reachable : Session -> Prop :=
| reach_New : reachable New
| reach_Valid s c : reachable s -> reachable (snd (Valid s c))
| reach_io s s' : reachable s -> Validity s' = Validity s -> reachable s'.

(** Evaluates the comparisons of a known verb with the verbs of the
    source. *)
Ltac eval_verbs :=
  repeat match goal with
  | |- context [str_eqb (lit ?a) (lit ?b)] =>
      let v := eval vm_compute in (str_eqb (lit a) (lit b)) in
      change (str_eqb (lit a) (lit b)) with v
  | |- context [str_eqb (lit ?a) CRLF] =>
      change (str_eqb (lit a) CRLF) with false
  | |- context [str_eqb CRLF (lit ?b)] =>
      change (str_eqb CRLF (lit b)) with false
  | |- context [str_eqb CRLF CRLF] =>
      change (str_eqb CRLF CRLF) with true
  end;
  cbv beta iota; cbn [orb andb negb].

(** Splits on every test of the goal, outermost first. *)
Ltac split_tests :=
  repeat match goal with
  | |- context [match failed ?x with _ => _ end] => destruct (failed x)
  | |- context [if ?b then _ else _] => destruct b eqn:?
  end.

(** What [Serve] does to a session apart from [Valid] and [Close]:
    reading, sending, polling and logging change neither the flags nor
    the connection nor the wait group. *)
Definition io_step (s s' : Session) : Prop :=
  Validity s' = Validity s /\ ConnClosed s' = ConnClosed s /\
  WgDone s' = WgDone s.

(** A peer that sends the given lines and then closes its side of the
    connection (every later read fails with nothing read), a writer
    whose flushes all succeed, and a server that never signals a
    shutdown. *)
Definition script (lines : list str) : Env :=
  mkEnv (fun n => match nth_error lines n with
                  | Some line => (line, false)
                  | None => ([], true)
                  end)
        (fun _ => false)
        (fun _ => false).

(** The specification's shutdown scenario: the peer sends a line without
    its terminator and closes, and the server has signalled a shutdown
    by the time the session polls. *)
Definition shutdown_after_partial_line : Env :=
  mkEnv (fun _ => (lit "NOOP", true)) (fun _ => false) (fun _ => true).

(** A writer that fails from its [n]-th flush on. *)
Definition broken_writer (n : nat) (lines : list str) : Env :=
  mkEnv (ReadString (script lines)) (fun k => n <=? k) (fun _ => false).

(** A peer that sends NOOP for ever, with every flush succeeding and no
    shutdown signalled. *)
Definition noop_forever : Env :=
  mkEnv (fun _ => (lit "NOOP" ++ CRLF, false)) (fun _ => false) (fun _ => false).

(** The session after a line was read and the poll found no signal. *)
Definition after_read (s : Session) : Session :=
  mkSession (Validity s) (S (Reads s)) (Flushes s) (S (Polls s)) (Sent s)
            (Logged s) (ConnClosed s) (WgDone s).

(** The verbs whose [case] only writes to the log. *)
Definition logged_only : list str :=
  [CRLF; lit "RSET"; lit "NOOP"; lit "HELP"; lit "VRFY"; lit "EXPN"].

(** An environment in which every read gives [line], every flush
    succeeds and no shutdown is signalled. *)
Definition quiet (line : str) : Env :=
  mkEnv (fun _ => (line, false)) (fun _ => false) (fun _ => false).

(** The five lines of the specification's scenario. *)
Definition scenario : list str :=
  [lit "EHLO host" ++ CRLF;
   lit "MAIL FROM:<a@b.com>" ++ CRLF;
   lit "RCPT TO:<c@d.com>" ++ CRLF;
   lit "DATA" ++ CRLF;
   lit "QUIT" ++ CRLF].

(** A line of the tests: the text and the terminator. *)
Definition terminated (s : string) : command := lit s ++ CRLF.
Arguments terminated s%_string.

(** ** Vocabulary of the parser, the validators and the rounds *)

(** Splits a byte into its 256 values. *)
Ltac each_byte c := destruct c as [[] [] [] [] [] [] [] []].


(** Every class of the pattern has only bytes that satisfy [P]. *)
Fixpoint classes_within (P : ascii -> bool) (r : regex) : Prop :=
  match r with
  | Eps => True
  | Cls p => forall c, p c = true -> P c = true
  | Cat r1 r2 | Alt r1 r2 => classes_within P r1 /\ classes_within P r2
  | Star r1 => classes_within P r1
  end.

Definition not_LF (c : ascii) : bool := negb (Ascii.eqb c LF).

(** The argument has, somewhere, an opening angle bracket, then at least
    one byte and no line feed, then a closing angle bracket. *)
Definition has_angle_envelope (a : str) : Prop :=
  exists pre body post,
    a = pre ++ "<"%char :: body ++ ">"%char :: post /\
    body <> [] /\ forallb not_LF body = true.

(** The part of [rRcptArg] between the opening bracket and the address:
    hops [@domain], each with an optional comma, and an optional colon. *)
Definition source_route : regex :=
  Cat (Star (Cat (Chr "@") (Cat domain (Quest (Chr ",")))))
      (Quest (Chr ":")).

(** The argument has, somewhere, between angle brackets, an optional
    source route and an address of the pattern [rMailAddr]. *)
Definition has_forward_path (a : str) : Prop :=
  exists pre route addr post,
    a = pre ++ "<"%char :: route ++ addr ++ ">"%char :: post /\
    matches source_route route /\ matches rMailAddr addr.

(** No flag that is set in [v] is clear in [v']. *)
Definition flags_kept (v v' : SessionValidity) : Prop :=
  (HeloFirst v = true -> HeloFirst v' = true) /\
  (MailFirst v = true -> MailFirst v' = true) /\
  (RcptFirst v = true -> RcptFirst v' = true).

(** The errors [Valid] can give. *)
Definition Valid_errors : list error :=
  [ehloFirstErr; badSeqErr; syntaxErr; invalidCommandArgErr;
   invalidRcptEmailErr].

(** The verbs with a [case] of their own in [Serve]. *)
Definition known_verbs : list str :=
  [lit "HELO"; lit "EHLO"; lit "MAIL FROM:"; lit "RCPT TO:"; lit "DATA";
   CRLF; lit "RSET"; lit "QUIT"; lit "NOOP"; lit "HELP"; lit "EXPN";
   lit "VRFY"].

(** The session as [Valid] finds it in a round: the line was read, the
    453 reply for a failed read was sent, the poll found no signal. *)
Definition before_Valid (env : Env) (s : Session) : Session :=
  let rerr := snd (ReadString env (Reads s)) in
  mkSession (Validity s) (S (Reads s))
            (if rerr then S (Flushes s) else Flushes s) (S (Polls s))
            (if rerr then Sent s ++ [REPLY_453 ++ CRLF] else Sent s)
            (Logged s) (ConnClosed s) (WgDone s).

(** The texts [Serve] sends: seven of the eight reply constants and the
    texts of five of the six errors. *)
Definition replies : list str :=
  [REPLY_220; REPLY_221; REPLY_250; REPLY_250_RCPT; REPLY_354; REPLY_453;
   REPLY_503] ++ map Error Valid_errors.

(** A message as it goes to the peer: one of the replies and the
    terminator. *)
Definition on_wire (m : str) : Prop :=
  exists r, In r replies /\ m = r ++ CRLF.

Ltac in_list := repeat first [left; reflexivity | right].

Ltac on_wire_tac := eexists; split; [|reflexivity]; unfold replies; simpl; in_list.

Ltac sent_more :=
  rewrite <- ?app_assoc;
  first [ exists []; split; [now rewrite app_nil_r|]
        | eexists; split; [reflexivity|] ].

(** The envelope after the [switch] of [Serve], by the verb. *)
Definition envelope_after (envl : Envelope) (c : command) : Envelope :=
  if str_eqb (Verb c) (lit "MAIL FROM:") then
    mkEnvelope (EmailAddress c) (RecipientAddress envl) (Extension envl)
  else if str_eqb (Verb c) (lit "RCPT TO:") then
    mkEnvelope (OriginatorAddress envl)
               (RecipientAddress envl ++ [EmailAddress c]) (Extension envl)
  else envl.

(** The flags tell what the envelope holds: [MailFirst] is set exactly
    when there is an originator, [RcptFirst] exactly when there is a
    recipient; every address in the envelope is an address of the
    pattern; the extension is empty. *)
Definition envelope_agrees (v : SessionValidity) (e : Envelope) : Prop :=
  (MailFirst v = true <-> OriginatorAddress e <> []) /\
  (RcptFirst v = true <-> RecipientAddress e <> []) /\
  (OriginatorAddress e = [] \/ matches rMailAddr (OriginatorAddress e)) /\
  Forall (matches rMailAddr) (RecipientAddress e) /\
  Extension e = [].

(** The replies a round has added to those sent before it. *)
Definition sent_in_round (env : Env) (s : Session) (envl : Envelope) : list str :=
  skipn (length (Sent s)) (Sent (round_session (iteration env s envl))).

(** * Properties *)

(** ** The matcher decides the language of a pattern *)

Section MatcherCorrect.
Context {A : Type}.
Implicit Types (k : str -> option A) (s : str) (r : regex).

Lemma star_loop_sound (m : str -> (str -> option A) -> option A) r :
  (forall s k x, m s k = Some x ->
     exists s1 s2, s = s1 ++ s2 /\ matches r s1 /\ k s2 = Some x) ->
  forall n k s x, star_loop m k n s = Some x ->
    exists s1 s2, s = s1 ++ s2 /\ matches (Star r) s1 /\ k s2 = Some x.
Proof.
  intros Hm n k. induction n as [|n IH]; intros s x; simpl.
  - intros Hk. exists [], s. repeat split; auto. constructor.
  - destruct (m s _) as [y|] eqn:E.
    + intros [= ->]. apply Hm in E. destruct E as (s1 & s2 & -> & H1 & Hk).
      destruct (length s2 <? length (s1 ++ s2)); [|discriminate].
      apply IH in Hk. destruct Hk as (s3 & s4 & -> & H3 & Hk).
      exists (s1 ++ s3), s4. rewrite app_assoc. repeat split; auto.
      now constructor.
    + intros Hk. exists [], s. repeat split; auto. constructor.
Qed.

Lemma run_sound r : forall s k x, run r s k = Some x ->
  exists s1 s2, s = s1 ++ s2 /\ matches r s1 /\ k s2 = Some x.
Proof.
  induction r as [|p|r1 IH1 r2 IH2|r1 IH1 r2 IH2|r1 IH1]; intros s k x; simpl.
  - intros Hk. exists [], s. repeat split; auto. constructor.
  - destruct s as [|c s]; [discriminate|].
    destruct (p c) eqn:Hp; [|discriminate].
    intros Hk. exists [c], s. repeat split; auto. now constructor.
  - intros H. apply IH1 in H. destruct H as (s1 & s2 & -> & H1 & H).
    apply IH2 in H. destruct H as (s3 & s4 & -> & H3 & Hk).
    exists (s1 ++ s3), s4. rewrite app_assoc. repeat split; auto.
    now constructor.
  - destruct (run r1 s k) as [y|] eqn:E.
    + intros [= ->]. apply IH1 in E. destruct E as (s1 & s2 & -> & H1 & Hk).
      exists s1, s2. repeat split; auto. now apply MAltL.
    + intros H. apply IH2 in H. destruct H as (s1 & s2 & -> & H1 & Hk).
      exists s1, s2. repeat split; auto. now apply MAltR.
  - apply star_loop_sound. exact IH1.
Qed.

Lemma star_loop_complete (m : str -> (str -> option A) -> option A) r :
  (forall s1, matches r s1 -> forall s2 k x, k s2 = Some x ->
     exists y, m (s1 ++ s2) k = Some y) ->
  forall s1, matches (Star r) s1 ->
  forall n k s2 x, length (s1 ++ s2) <= n -> k s2 = Some x ->
    exists y, star_loop m k n (s1 ++ s2) = Some y.
Proof.
  intros Hm s1 H. remember (Star r) as r' eqn:Er.
  induction H as [| | | | |r0|r0 s1 s3 H1 _ H3 IH]; try discriminate;
    injection Er as ->; intros n k s2 x Hlen Hk.
  - destruct n; simpl; [eauto|]. destruct (m s2 _); eauto.
  - destruct s1 as [|c s1]; [now apply (IH eq_refl n k s2 x)|].
    destruct n as [|n]; [simpl in Hlen; lia|].
    rewrite <- app_assoc. simpl star_loop.
    match goal with |- context [m ?s ?k'] => set (k0 := k') end.
    assert (Hk' : exists y, k0 (s3 ++ s2) = Some y).
    { unfold k0.
      assert (L : (length (s3 ++ s2) <? length ((c :: s1) ++ s3 ++ s2)) = true).
      { apply Nat.ltb_lt. simpl. rewrite !length_app. lia. }
      simpl in L. rewrite L. apply (IH eq_refl n k s2 x); auto.
      simpl in Hlen. rewrite !length_app in *. lia. }
    destruct Hk' as [y Hy].
    destruct (Hm _ H1 _ k0 _ Hy) as [z Hz]. simpl in Hz. rewrite Hz. eauto.
Qed.

Lemma run_complete r : forall s1, matches r s1 ->
  forall s2 k x, k s2 = Some x -> exists y, run r (s1 ++ s2) k = Some y.
Proof.
  induction r as [|p|r1 IH1 r2 IH2|r1 IH1 r2 IH2|r1 IH1]; intros s1 H.
  - inversion H; subst. simpl. eauto.
  - inversion H; subst. simpl. intros s2 k x Hk.
    match goal with Hp : p _ = true |- _ => rewrite Hp end. eauto.
  - inversion H as [| |? ? t1 t2 H1 H2| | | |]; subst.
    intros s2 k x Hk. simpl. rewrite <- app_assoc.
    destruct (IH2 _ H2 _ _ _ Hk) as [y Hy].
    apply (IH1 _ H1 (t2 ++ s2) (fun s' => run r2 s' k) y Hy).
  - intros s2 k x Hk. simpl.
    destruct (run r1 (s1 ++ s2) k) as [y|] eqn:E; [eauto|].
    inversion H as [| | |? ? ? H1|? ? ? H2| |]; subst.
    + destruct (IH1 _ H1 _ _ _ Hk). congruence.
    + apply (IH2 _ H2 _ _ _ Hk).
  - intros s2 k x Hk. simpl.
    apply (star_loop_complete (run r1) r1 IH1 s1 H _ k s2 x); auto.
Qed.

End MatcherCorrect.

Lemma match_here_spec re s :
  match_here re s = true <-> exists m post, s = m ++ post /\ matches re m.
Proof.
  unfold match_here. split.
  - destruct (run re s _) as [x|] eqn:E; [|discriminate]. intros _.
    apply run_sound in E. destruct E as (m & post & -> & H & _). eauto.
  - intros (m & post & -> & H).
    destruct (run_complete re m H post (fun _ => Some tt) tt eq_refl) as [y ->].
    reflexivity.
Qed.

(** [MatchString] holds exactly of the strings with a substring in the
    language of the pattern. *)
Lemma MatchString_spec re s :
  MatchString re s = true <->
  exists pre m post, s = pre ++ m ++ post /\ matches re m.
Proof.
  induction s as [|c s IH].
  - simpl. rewrite orb_false_r, match_here_spec. split.
    + intros (m & post & E & H). exists [], m, post. auto.
    + intros (pre & m & post & E & H). destruct pre; [|discriminate].
      exists m, post. auto.
  - simpl. rewrite orb_true_iff, match_here_spec, IH. split.
    + intros [(m & post & E & H)|(pre & m & post & -> & H)].
      * exists [], m, post. auto.
      * exists (c :: pre), m, post. auto.
    + intros (pre & m & post & E & H). destruct pre as [|c' pre].
      * left. exists m, post. auto.
      * right. injection E as -> ->. exists pre, m, post. auto.
Qed.

(** ** Byte strings and the [strings] functions *)

Lemma str_eqb_eq a : forall b, str_eqb a b = true <-> a = b.
Proof.
  induction a as [|x a IH]; intros [|y b]; simpl; split;
    try discriminate; try reflexivity.
  - rewrite andb_true_iff, Ascii.eqb_eq, IH. now intros [-> ->].
  - intros [= -> ->]. rewrite andb_true_iff, Ascii.eqb_eq, IH. auto.
Qed.

Lemma str_eqb_refl a : str_eqb a a = true.
Proof. now apply str_eqb_eq. Qed.

Lemma str_eqb_neq a b : a <> b -> str_eqb a b = false.
Proof.
  intros H. destruct (str_eqb a b) eqn:E; [|reflexivity].
  apply str_eqb_eq in E. contradiction.
Qed.

Lemma TrimLeftSpace_length s : length (TrimLeftSpace s) <= length s.
Proof.
  induction s as [|c s IH]; simpl; [lia|].
  destruct (asciiSpace c); simpl; lia.
Qed.

Lemma TrimSpace_length s : length (TrimSpace s) <= length s.
Proof.
  unfold TrimSpace, TrimRightSpace. rewrite length_rev.
  etransitivity; [apply TrimLeftSpace_length|]. rewrite length_rev.
  apply TrimLeftSpace_length.
Qed.

Lemma ToUpper_length s : length (ToUpper s) = length s.
Proof. apply length_map. Qed.

Lemma Split_not_nil s sep : Split s sep <> [].
Proof.
  destruct s as [|c s]; simpl; [discriminate|].
  destruct (Ascii.eqb c sep); [discriminate|].
  destruct (Split s sep); discriminate.
Qed.

(** The first piece of a split ends before the first separator. *)
Lemma Split_first_sep tok sep rest :
  ~ In sep tok -> nth 0 (Split (tok ++ sep :: rest) sep) [] = tok.
Proof.
  induction tok as [|c tok IH]; simpl; intros H.
  - now rewrite Ascii.eqb_refl.
  - destruct (Ascii.eqb c sep) eqn:E.
    + apply Ascii.eqb_eq in E. subst. tauto.
    + assert (IH' := IH (fun H' => H (or_intror H'))).
      destruct (Split (tok ++ sep :: rest) sep); simpl in *; congruence.
Qed.

Lemma Split_no_sep s sep : ~ In sep s -> Split s sep = [s].
Proof.
  induction s as [|c s IH]; simpl; intros H; [reflexivity|].
  destruct (Ascii.eqb c sep) eqn:E.
  - apply Ascii.eqb_eq in E. subst. tauto.
  - rewrite IH; tauto.
Qed.

Lemma Split_first_length s sep : length (nth 0 (Split s sep) []) <= length s.
Proof.
  induction s as [|c s IH]; simpl; [lia|].
  destruct (Ascii.eqb c sep); simpl; [lia|].
  destruct (Split s sep); simpl in *; lia.
Qed.

Lemma HasPrefix_byte s c :
  HasPrefix s [c] = match s with x :: _ => Ascii.eqb x c | [] => false end.
Proof.
  destruct s as [|x s]; [reflexivity|].
  change (HasPrefix (x :: s) [c]) with (Ascii.eqb x c && true).
  apply andb_true_r.
Qed.

(** [Index] finds the first occurrence of a byte. *)
Lemma index_of_first p c q :
  ~ In c p -> index_of (p ++ c :: q) [c] = Some (length p).
Proof.
  induction p as [|x p IH]; intros H.
  - simpl. now rewrite Ascii.eqb_refl.
  - change (index_of ((x :: p) ++ c :: q) [c])
      with (if HasPrefix (x :: p ++ c :: q) [c] then Some 0
            else option_map S (index_of (p ++ c :: q) [c])).
    rewrite HasPrefix_byte.
    destruct (Ascii.eqb x c) eqn:E.
    + apply Ascii.eqb_eq in E. subst. simpl in H. tauto.
    + rewrite IH; [reflexivity|]. simpl in H. tauto.
Qed.

Lemma index_of_absent s c : ~ In c s -> index_of s [c] = None.
Proof.
  induction s as [|x s IH]; intros H; [reflexivity|].
  change (index_of (x :: s) [c])
    with (if HasPrefix (x :: s) [c] then Some 0
          else option_map S (index_of s [c])).
  rewrite HasPrefix_byte.
  destruct (Ascii.eqb x c) eqn:E.
  - apply Ascii.eqb_eq in E. subst. simpl in H. tauto.
  - rewrite IH; [reflexivity|]. simpl in H. tauto.
Qed.

Lemma Index_first p c q :
  ~ In c p -> Index (p ++ c :: q) [c] = Z.of_nat (length p).
Proof. intros H. unfold Index. now rewrite index_of_first. Qed.

Lemma Index_absent s c : ~ In c s -> Index s [c] = (-1)%Z.
Proof. intros H. unfold Index. now rewrite index_of_absent. Qed.

(** Every string splits at its first occurrence of a byte, if it has one. *)
Lemma first_occurrence (c : ascii) s :
  In c s -> exists p q, s = p ++ c :: q /\ ~ In c p.
Proof.
  induction s as [|x s IH]; simpl; [tauto|]. intros H.
  destruct (ascii_dec x c) as [->|N].
  - exists [], s. simpl. tauto.
  - destruct IH as (p & q & -> & Hp); [tauto|].
    exists (x :: p), q. simpl. split; [reflexivity|tauto].
Qed.

(** The verb is never longer than the line, so the slice [line[i:]] of
    [command.Arg] is always in range. *)
Lemma Verb_length c : length (Verb c) <= length c.
Proof.
  unfold Verb. destruct (str_eqb c CRLF) eqn:E.
  - apply str_eqb_eq in E. subst. simpl. lia.
  - pose proof (TrimSpace_length c) as T.
    destruct (length (TrimSpace c) =? 4).
    + now rewrite ToUpper_length.
    + destruct (4 <? length (TrimSpace c)); [|simpl; lia].
      destruct (0 <? Index (TrimSpace c) (lit ":"))%Z; rewrite ToUpper_length.
      * rewrite length_firstn. lia.
      * etransitivity; [apply Split_first_length|exact T].
Qed.

(** ** The command parser *)

Lemma first_token_exists t : exists tok, first_token t tok.
Proof.
  destruct (in_dec ascii_dec " "%char t) as [H|H].
  - destruct (first_occurrence _ _ H) as (p & q & -> & Hp).
    exists p. split; eauto.
  - exists t. split; auto.
Qed.

Lemma first_token_Split t tok :
  first_token t tok -> nth 0 (Split t " ") [] = tok.
Proof.
  intros [H [->|[rest ->]]].
  - now rewrite Split_no_sep.
  - now apply Split_first_sep.
Qed.

Lemma firstn_through p (c : ascii) q :
  firstn (Z.to_nat (Z.of_nat (length p) + 1)) (p ++ c :: q) = p ++ [c].
Proof.
  replace (Z.to_nat (Z.of_nat (length p) + 1)) with (length p + 1) by lia.
  rewrite firstn_app, firstn_all2 by lia.
  replace (length p + 1 - length p) with 1 by lia. reflexivity.
Qed.

(** The two cases of a trimmed line of more than four bytes leave no
    line out. *)
Lemma colon_cases (t : str) :
  (exists p q, t = p ++ ":"%char :: q /\ p <> [] /\ ~ In ":"%char p) \/
  (~ In ":"%char t \/ exists q, t = ":"%char :: q).
Proof.
  destruct (in_dec ascii_dec ":"%char t) as [H|H]; [|tauto].
  destruct (first_occurrence _ _ H) as (p & q & -> & Hp).
  destruct p as [|x p].
  - right. right. exists q. reflexivity.
  - left. exists (x :: p), q. repeat split; auto. discriminate.
Qed.

(** C8, as the code has it: the verb of a line.  The bare terminator is
    its own verb; a trimmed line of four bytes is the verb, in upper
    case; of a longer trimmed line whose first colon is not its first
    byte the verb is the text up to and including that colon, in upper
    case; of a longer trimmed line without a colon, or with a colon as
    its first byte, the verb is the text before the first space (all of
    it when there is no space), in upper case; every other line has the
    empty verb. *)
Theorem Verb_cases (line : command) :
  (line = CRLF -> Verb line = CRLF) /\
  (line <> CRLF ->
   let t := TrimSpace line in
   (length t = 4 -> Verb line = ToUpper t) /\
   (4 < length t ->
    forall p q, t = p ++ ":"%char :: q -> p <> [] -> ~ In ":"%char p ->
    Verb line = ToUpper (p ++ [":"%char])) /\
   (4 < length t ->
    ~ In ":"%char t \/ (exists q, t = ":"%char :: q) ->
    forall tok, first_token t tok -> Verb line = ToUpper tok) /\
   (length t < 4 -> Verb line = [])).
Proof.
  split.
  - intros ->. reflexivity.
  - intros N t. unfold Verb. rewrite (str_eqb_neq _ _ N). fold t.
    repeat split.
    + intros L. rewrite L. reflexivity.
    + intros L p q E Hp Hc.
      destruct (Nat.eqb_spec (length t) 4); [lia|].
      destruct (Nat.ltb_spec 4 (length t)); [|lia].
      rewrite E. change (lit ":") with [":"%char].
      rewrite Index_first by assumption.
      destruct p as [|x p]; [contradiction|].
      destruct (Z.ltb_spec 0 (Z.of_nat (length (x :: p)))) as [_|F];
        [|simpl in F; lia].
      now rewrite firstn_through.
    + intros L Hc tok Ht.
      destruct (Nat.eqb_spec (length t) 4); [lia|].
      destruct (Nat.ltb_spec 4 (length t)); [|lia].
      change (lit ":") with [":"%char].
      assert (I : (0 <? Index t [":"%char])%Z = false).
      { destruct Hc as [Hc|[q Hq]].
        - now rewrite Index_absent.
        - rewrite Hq. change (":"%char :: q) with ([] ++ ":"%char :: q).
          rewrite Index_first; [reflexivity|]. simpl. tauto. }
      rewrite I. now rewrite (first_token_Split t tok).
    + intros L.
      destruct (Nat.eqb_spec (length t) 4); [lia|].
      destruct (Nat.ltb_spec 4 (length t)); [lia|]. reflexivity.
Qed.

(** The theorem at the line [mail from:<a@b.com>] and its terminator. *)
Lemma Verb_cases_witness :
  Verb (lit "mail from:<a@b.com>" ++ CRLF) = lit "MAIL FROM:".
Proof.
  destruct (Verb_cases (lit "mail from:<a@b.com>" ++ CRLF)) as [_ H].
  destruct (H ltac:(discriminate)) as (_ & Hcolon & _).
  apply (Hcolon ltac:(vm_compute; lia) (lit "mail from") (lit "<a@b.com>")).
  - reflexivity.
  - discriminate.
  - simpl. intros H'. repeat destruct H' as [H'|H']; try discriminate; auto.
Defined.

(** C8 as the specification words it fails twice.  The line [:hello]
    is longer than four bytes and has a colon, and its verb is not the
    text up to and including the colon: the colon is the first byte,
    and the code asks for [i > 0].  The line [noop<TAB>abc] has no colon,
    and its verb is not its first token delimited by white space: the
    code splits on the space character only. *)
Lemma Verb_cases_counterexample :
  (let line := lit ":hello" ++ CRLF in
   let t := TrimSpace line in
   line <> CRLF /\ 4 < length t /\ t = [] ++ ":"%char :: lit "hello" /\
   Verb line = lit ":HELLO" /\ Verb line <> ToUpper ([] ++ [":"%char])) /\
  (let line := lit "noop" ++ ["009"%char] ++ lit "abc" ++ CRLF in
   let t := TrimSpace line in
   line <> CRLF /\ 4 < length t /\ ~ In ":"%char t /\
   t = lit "noop" ++ ["009"%char] ++ lit "abc" /\
   asciiSpace "009" = true /\ forallb (fun c => negb (asciiSpace c)) (lit "noop") = true /\
   Verb line = lit "NOOP" ++ ["009"%char] ++ lit "ABC" /\
   Verb line <> ToUpper (lit "noop")).
Proof.
  split; cbv zeta; repeat split; try reflexivity; try discriminate.
  - vm_compute. lia.
  - vm_compute. lia.
  - vm_compute. intros H. repeat destruct H as [H|H]; try discriminate; auto.
Qed.

(** ** The validators *)

Lemma matches_Cat r1 r2 s :
  matches (Cat r1 r2) s <->
  exists s1 s2, s = s1 ++ s2 /\ matches r1 s1 /\ matches r2 s2.
Proof.
  split.
  - intros H. inversion H; subst. eauto.
  - intros (s1 & s2 & -> & H1 & H2). now constructor.
Qed.

Lemma matches_Chr c s : matches (Chr c) s <-> s = [c].
Proof.
  unfold Chr. split.
  - intros H. inversion H as [|? x Hx| | | | |]; subst.
    apply Ascii.eqb_eq in Hx. now subst.
  - intros ->. constructor. apply Ascii.eqb_refl.
Qed.

(** The pattern of the MAIL argument is the address pattern between
    angle brackets. *)
Lemma matches_rMailArg m :
  matches rMailArg m <->
  exists addr, m = "<"%char :: addr ++ [">"%char] /\ matches rMailAddr addr.
Proof.
  unfold rMailArg, rMailAddr. split.
  - intros H.
    apply matches_Cat in H. destruct H as (a & m1 & -> & Ha & H).
    apply matches_Chr in Ha. subst a.
    apply matches_Cat in H. destruct H as (l & m2 & -> & Hl & H).
    apply matches_Cat in H. destruct H as (at_ & m3 & -> & Hat & H).
    apply matches_Cat in H. destruct H as (d & z & -> & Hd & Hz).
    apply matches_Chr in Hz. subst z.
    exists (l ++ at_ ++ d). split.
    + simpl. now rewrite <- !app_assoc.
    + repeat (constructor; try assumption).
  - intros (addr & -> & H).
    apply matches_Cat in H. destruct H as (l & m2 & -> & Hl & H).
    apply matches_Cat in H. destruct H as (at_ & d & -> & Hat & Hd).
    change ("<"%char :: (l ++ at_ ++ d) ++ [">"%char])
      with (["<"%char] ++ (l ++ at_ ++ d) ++ [">"%char]).
    rewrite <- !app_assoc.
    repeat (constructor; try assumption); now apply matches_Chr.
Qed.

Lemma MatchString_rMailArg a :
  MatchString rMailArg a = true <-> has_bracketed_address a.
Proof.
  rewrite MatchString_spec. unfold has_bracketed_address. split.
  - intros (pre & m & post & -> & H).
    apply matches_rMailArg in H. destruct H as (addr & -> & H).
    exists pre, addr, post. split; [|assumption].
    simpl. now rewrite <- app_assoc.
  - intros (pre & addr & post & -> & H).
    exists pre, ("<"%char :: addr ++ [">"%char]), post. split.
    + simpl. now rewrite <- app_assoc.
    + apply matches_rMailArg. eauto.
Qed.

(** C4, as the code has it: [ValidMail] fails with the syntax error
    exactly when the argument is empty, fails with the invalid-arguments
    error exactly when the argument is not empty and holds no bracketed
    address of the address pattern, with or without angle brackets, and
    succeeds exactly when the argument holds such a bracketed address. *)
Theorem ValidMail_cases (c : command) :
  (ValidMail c = (false, Some syntaxErr) <-> Arg c = []) /\
  (ValidMail c = (false, Some invalidCommandArgErr) <->
   Arg c <> [] /\ ~ has_bracketed_address (Arg c)) /\
  (ValidMail c = (true, None) <-> has_bracketed_address (Arg c)).
Proof.
  unfold ValidMail.
  pose proof (MatchString_rMailArg (Arg c)) as M.
  assert (E0 : has_bracketed_address [] -> False).
  { intros (pre & addr & post & E & _). destruct pre; discriminate. }
  destruct (str_eqb (Arg c) []) eqn:E.
  - apply str_eqb_eq in E. rewrite E in *.
    repeat split; try discriminate; try tauto.
  - assert (N : Arg c <> []).
    { intros H. rewrite H in E. discriminate. }
    destruct (MatchString rMailArg (Arg c)); simpl.
    + assert (has_bracketed_address (Arg c)) by now apply M.
      repeat split; try discriminate; tauto.
    + assert (~ has_bracketed_address (Arg c)).
      { intros H. apply M in H. discriminate. }
      repeat split; try discriminate; tauto.
Qed.

(** C4 as the specification words it fails at the line
    [MAIL FROM: some@valid.email.com]: its argument has no angle bracket
    at all, and the error is the invalid-arguments error, not the syntax
    error. *)
Lemma ValidMail_cases_counterexample :
  let c := lit "MAIL FROM: some@valid.email.com" ++ CRLF in
  HasSuffix c CRLF = true /\ Verb c = lit "MAIL FROM:" /\
  Arg c = lit "some@valid.email.com" /\
  MatchString rArgSyntax (Arg c) = false /\
  ValidMail c = (false, Some invalidCommandArgErr) /\
  kind_of invalidCommandArgErr = InvalidArguments /\
  ValidMail c <> (false, Some syntaxErr).
Proof. cbv zeta. repeat split; try reflexivity. discriminate. Qed.

(** C9: the line [RCPT TO:<user@sub.example.com>] passes [ValidRcpt],
    and [EmailAddress] gives back the address that was put between the
    angle brackets. *)
Theorem rcpt_address_roundtrip :
  let address := lit "user@sub.example.com" in
  let c : command := lit "RCPT TO:" ++ ["<"%char] ++ address ++ [">"%char] ++ CRLF in
  c = lit "RCPT TO:<user@sub.example.com>" ++ CRLF /\
  ValidRcpt c = (true, None) /\
  EmailAddress c = address.
Proof. cbv zeta. repeat split; vm_compute; reflexivity. Qed.

(** ** The conversation state machine *)

Lemma ValidLine_terminated c :
  HasSuffix c CRLF = true -> ValidLine c = (true, None).
Proof.
  intros H. unfold ValidLine. rewrite H.
  destruct c; [discriminate|reflexivity].
Qed.

Lemma ValidLine_unterminated c :
  HasSuffix c CRLF = false -> ValidLine c = (false, Some syntaxErr).
Proof. intros H. unfold ValidLine. rewrite H. now destruct (str_eqb c []). Qed.

(** [Valid] touches nothing of the session but the flags. *)
Lemma Valid_frame s c :
  snd (Valid s c) = with_Validity s (Validity (snd (Valid s c))).
Proof.
  assert (E : s = with_Validity s (Validity s)) by now destruct s.
  unfold Valid. split_tests; simpl; exact E || reflexivity.
Qed.

Lemma Valid_keeps_HeloFirst s c :
  HeloFirst (Validity s) = true ->
  HeloFirst (Validity (snd (Valid s c))) = true.
Proof. intros H. unfold Valid. split_tests; simpl; auto. Qed.

Lemma Valid_MailFirst_needs_HeloFirst s c :
  HeloFirst (Validity s) = false ->
  MailFirst (Validity (snd (Valid s c))) = MailFirst (Validity s).
Proof.
  intros H. unfold Valid. rewrite H. split_tests; simpl; auto; discriminate.
Qed.

Lemma Valid_RcptFirst_needs_MailFirst s c :
  MailFirst (Validity s) = false ->
  RcptFirst (Validity (snd (Valid s c))) = RcptFirst (Validity s).
Proof.
  intros H. unfold Valid. rewrite H. split_tests; simpl; auto; discriminate.
Qed.

Lemma Valid_keeps_MailFirst s c :
  MailFirst (Validity s) = true ->
  MailFirst (Validity (snd (Valid s c))) = true.
Proof. intros H. unfold Valid. split_tests; simpl; auto. Qed.

Lemma Valid_MAIL_ungreeted s c :
  HeloFirst (Validity s) = false -> HasSuffix c CRLF = true ->
  Verb c = lit "MAIL FROM:" ->
  Valid s c = ((false, Some ehloFirstErr), s).
Proof.
  intros H T V. unfold Valid.
  rewrite (ValidLine_terminated c T), V, H. reflexivity.
Qed.

Lemma Valid_DATA_accepted s c :
  Verb c = lit "DATA" -> fst (Valid s c) = (true, None) ->
  HeloFirst (Validity s) = true /\ MailFirst (Validity s) = true /\
  RcptFirst (Validity s) = true.
Proof.
  intros V. unfold Valid. rewrite V. eval_verbs.
  destruct (failed (ValidLine c)); [discriminate|].
  destruct (HeloFirst (Validity s)); [|discriminate].
  destruct (MailFirst (Validity s)); [|discriminate].
  destruct (RcptFirst (Validity s)); [|discriminate].
  auto.
Qed.

Lemma Valid_chain s c :
  chain (Validity s) -> chain (Validity (snd (Valid s c))).
Proof.
  intros [HR HM]. unfold chain.
  destruct (HeloFirst (Validity s)) eqn:EH.
  - rewrite (Valid_keeps_HeloFirst s c EH).
    destruct (MailFirst (Validity s)) eqn:EM.
    + rewrite (Valid_keeps_MailFirst s c EM). auto.
    + rewrite (Valid_RcptFirst_needs_MailFirst s c EM).
      split; [|auto]. intros R. apply HR in R. discriminate.
  - rewrite (Valid_MailFirst_needs_HeloFirst s c EH).
    destruct (MailFirst (Validity s)) eqn:EM.
    + discriminate HM; reflexivity.
    + rewrite (Valid_RcptFirst_needs_MailFirst s c EM).
      split; [|discriminate]. intros R. apply HR in R. discriminate.
Qed.

Lemma reachable_chain s : reachable s -> chain (Validity s).
Proof.
  induction 1 as [|s c _ IH|s s' _ IH E].
  - split; discriminate.
  - now apply Valid_chain.
  - now rewrite E.
Qed.

(** ** The serve loop *)

Lemma Transmit_io env s text : io_step s (snd (Transmit env s text)).
Proof. repeat split. Qed.

Lemma Println_io s text : io_step s (Println s text).
Proof. repeat split. Qed.

Lemma CheckChanClosed_io env s : io_step s (snd (CheckChanClosed env s)).
Proof. unfold CheckChanClosed. destruct (Signal env (Polls s)); repeat split. Qed.

Lemma read_line_io env s : io_step s (snd (read_line env s)).
Proof. repeat split. Qed.

Section Preserved.

(** A property of sessions that io steps and [Valid] preserve is
    preserved by every round of the loop. *)
Variable P : Session -> Prop.
Hypothesis P_io : forall s s', P s -> io_step s s' -> P s'.
Hypothesis P_Valid : forall s c, P s -> P (snd (Valid s c)).

Lemma reply_preserves env s envl text :
  P s -> P (round_session (reply env s envl text)).
Proof.
  intros H. unfold reply.
  pose proof (Transmit_io env s text) as T.
  destruct (Transmit env s text) as [err s']. simpl in *. eauto.
Qed.

Lemma dispatch_preserves env s envl c :
  P s -> P (round_session (dispatch env s envl c)).
Proof.
  intros H. unfold dispatch. cbv zeta.
  repeat match goal with
  | |- context [if ?b then _ else _] => destruct b
  end;
  try (apply reply_preserves; assumption);
  unfold round_session; cbn [fst snd];
  (apply (P_io s); [assumption|]);
  apply Println_io || apply Transmit_io.
Qed.

Lemma iteration_preserves env s envl :
  P s -> P (round_session (iteration env s envl)).
Proof.
  intros H. unfold iteration.
  pose proof (read_line_io env s) as R.
  destruct (read_line env s) as [[line rerr] s1]. simpl in R.
  assert (P1 : P s1) by eauto.
  assert (P2 : P (snd (if rerr then Transmit env s1 REPLY_453 else (false, s1)))).
  { destruct rerr; [|exact P1]. eapply P_io; [exact P1|apply Transmit_io]. }
  destruct (if rerr then _ else _) as [werr s2]. simpl in P2.
  destruct werr; [exact P2|].
  assert (P3 : P (snd (CheckChanClosed env s2))).
  { eapply P_io; [exact P2|apply CheckChanClosed_io]. }
  destruct (CheckChanClosed env s2) as [chanClosed s3]. simpl in P3.
  destruct chanClosed; [exact P3|].
  pose proof (P_Valid s3 line P3) as P4.
  destruct (Valid s3 line) as [[valid err] s4]. simpl in P4.
  destruct valid, err as [err|]; try now apply dispatch_preserves.
  unfold TransmitErr.
  pose proof (Transmit_io env s4 (Error err)) as T.
  destruct (Transmit env s4 (Error err)) as [e s5]. simpl in *. eauto.
Qed.

Lemma loop_preserves env fuel : forall s envl s' envl',
  loop fuel env s envl = Some (s', envl') -> P s -> P s'.
Proof.
  induction fuel as [|fuel IH]; intros s envl s' envl'; simpl; [discriminate|].
  pose proof (iteration_preserves env s envl) as I.
  destruct (iteration env s envl) as [[[|] s1] envl1];
    unfold round_session in I; simpl in I.
  - intros L H. eapply IH; eauto.
  - intros [= <- <-] H. auto.
Qed.

Lemma serve_body_preserves env fuel s s' envl' :
  serve_body fuel env s = Some (s', envl') -> P s -> P s'.
Proof.
  unfold serve_body. pose proof (Transmit_io env s REPLY_220) as T.
  destruct (Transmit env s REPLY_220) as [err s1]. simpl in T.
  destruct err.
  - intros [= <- <-] H. eauto.
  - intros L H. eapply loop_preserves; eauto.
Qed.

End Preserved.

Lemma reachable_io s s' : reachable s -> io_step s s' -> reachable s'.
Proof. intros H [E _]. now apply (reach_io s). Qed.

Lemma Valid_resources s c :
  ConnClosed (snd (Valid s c)) = ConnClosed s /\
  WgDone (snd (Valid s c)) = WgDone s.
Proof. rewrite Valid_frame. split; reflexivity. Qed.

(** The body of [Serve] never closes the connection and never touches
    the wait group. *)
Lemma serve_body_resources env fuel s s' envl' :
  serve_body fuel env s = Some (s', envl') ->
  ConnClosed s' = ConnClosed s /\ WgDone s' = WgDone s.
Proof.
  intros H.
  refine (serve_body_preserves
            (fun x => ConnClosed x = ConnClosed s /\ WgDone x = WgDone s)
            _ _ env fuel s s' envl' H (conj eq_refl eq_refl)).
  - intros a b Pa (_ & -> & ->). exact Pa.
  - intros a c Pa. destruct (Valid_resources a c) as [-> ->]. exact Pa.
Qed.

Lemma Serve_reachable env fuel s s' envl' :
  Serve fuel env s = Some (s', envl') -> reachable s -> reachable s'.
Proof.
  unfold Serve. destruct (serve_body fuel env s) as [[s1 e1]|] eqn:B;
    [|discriminate].
  intros [= <- <-] H. apply (reach_io s1); [|reflexivity].
  exact (serve_body_preserves reachable reachable_io reach_Valid
           env fuel s s1 e1 B H).
Qed.

(** C1: the flags are a precondition chain.  [Valid] leaves [MailFirst]
    alone while [HeloFirst] is false, and answers a MAIL FROM: line with
    the greeting-required error then; it leaves [RcptFirst] alone while
    [MailFirst] is false; it accepts DATA only when [MailFirst] and
    [RcptFirst] are both true; so in every reachable state, [RcptFirst]
    implies [MailFirst] and [MailFirst] implies [HeloFirst].  Every
    round of the loop takes a reachable session to a reachable one, and
    the chain holds in the state [Serve] ends in. *)
Theorem flags_precondition_chain :
  (forall s c, HeloFirst (Validity s) = false ->
     MailFirst (Validity (snd (Valid s c))) = MailFirst (Validity s)) /\
  (forall s c, HeloFirst (Validity s) = false ->
     HasSuffix c CRLF = true -> Verb c = lit "MAIL FROM:" ->
     Valid s c = ((false, Some ehloFirstErr), s)) /\
  (forall s c, MailFirst (Validity s) = false ->
     RcptFirst (Validity (snd (Valid s c))) = RcptFirst (Validity s)) /\
  (forall s c, Verb c = lit "DATA" -> fst (Valid s c) = (true, None) ->
     MailFirst (Validity s) = true /\ RcptFirst (Validity s) = true) /\
  (forall s, reachable s -> chain (Validity s)) /\
  (forall env s envl, reachable s ->
     reachable (round_session (iteration env s envl))) /\
  (forall fuel env s envl,
     Serve fuel env New = Some (s, envl) -> chain (Validity s)).
Proof.
  assert (I : forall env s envl, reachable s ->
                reachable (round_session (iteration env s envl))).
  { intros env s envl.
    exact (iteration_preserves reachable reachable_io reach_Valid env s envl). }
  repeat split; try (now apply I).
  - apply Valid_MailFirst_needs_HeloFirst.
  - apply Valid_MAIL_ungreeted.
  - apply Valid_RcptFirst_needs_MailFirst.
  - now apply (Valid_DATA_accepted s c).
  - now apply (Valid_DATA_accepted s c).
  - now apply reachable_chain.
  - now apply reachable_chain.
  - apply reachable_chain. eapply Serve_reachable; eauto. constructor.
  - apply reachable_chain. eapply Serve_reachable; eauto. constructor.
Qed.

(** The theorem at the state reached by a greeting, a sender and a
    recipient. *)
Lemma flags_precondition_chain_witness :
  reachable (snd (Valid (snd (Valid (snd (Valid New
     (lit "EHLO host" ++ CRLF)))
     (lit "MAIL FROM:<a@b.com>" ++ CRLF)))
     (lit "RCPT TO:<c@d.com>" ++ CRLF))) /\
  chain (mkValidity true true true).
Proof.
  assert (R : reachable (snd (Valid (snd (Valid (snd (Valid New
     (lit "EHLO host" ++ CRLF)))
     (lit "MAIL FROM:<a@b.com>" ++ CRLF)))
     (lit "RCPT TO:<c@d.com>" ++ CRLF)))) by repeat constructor.
  split; [exact R|].
  destruct flags_precondition_chain as (_ & _ & _ & _ & H & _ & _).
  exact (H _ R).
Defined.

(** C6: whenever [Serve] returns, by whatever path, it has closed the
    connection once and called [Done] on the wait group once. *)
Theorem Serve_closes_once fuel env s s' envl :
  Serve fuel env s = Some (s', envl) ->
  ConnClosed s' = S (ConnClosed s) /\ WgDone s' = S (WgDone s).
Proof.
  unfold Serve.
  destruct (serve_body fuel env s) as [[s1 e1]|] eqn:B; [|discriminate].
  intros [= <- <-].
  destruct (serve_body_resources env fuel s s1 e1 B) as [C W].
  simpl. now rewrite C, W.
Qed.

(** The theorem at the shutdown scenario: both 453 replies are sent,
    the one for the failed read and the one for the shutdown, and the
    session is closed once. *)
Lemma Serve_closes_once_witness :
  exists s' envl,
    Serve 1 shutdown_after_partial_line New = Some (s', envl) /\
    Sent s' = [REPLY_220 ++ CRLF; REPLY_453 ++ CRLF; REPLY_453 ++ CRLF] /\
    ConnClosed s' = 1 /\ WgDone s' = 1.
Proof.
  destruct (Serve 1 shutdown_after_partial_line New) as [[s' envl]|] eqn:E;
    [|discriminate].
  exists s', envl. split; [reflexivity|]. split.
  - now injection E as <- <-.
  - exact (Serve_closes_once 1 shutdown_after_partial_line New s' envl E).
Defined.

(** The four ways out of [Serve], each taken by some run. *)
Example exit_by_QUIT :
  option_map (fun r => (Sent (fst r), ConnClosed (fst r), WgDone (fst r)))
    (Serve 1 (script [lit "QUIT" ++ CRLF]) New)
  = Some ([REPLY_220 ++ CRLF; REPLY_221 ++ CRLF], 1, 1).
Proof. reflexivity. Qed.

Example exit_by_greeting_failure :
  option_map (fun r => (Sent (fst r), ConnClosed (fst r), WgDone (fst r)))
    (Serve 0 (broken_writer 0 []) New)
  = Some ([], 1, 1).
Proof. reflexivity. Qed.

Example exit_by_reply_failure :
  option_map (fun r => (Sent (fst r), ConnClosed (fst r), WgDone (fst r)))
    (Serve 1 (broken_writer 1 [lit "EHLO host" ++ CRLF]) New)
  = Some ([REPLY_220 ++ CRLF], 1, 1).
Proof. reflexivity. Qed.

Example exit_by_shutdown :
  option_map (fun r => (Sent (fst r), ConnClosed (fst r), WgDone (fst r)))
    (Serve 1 (mkEnv (ReadString (script [lit "NOOP" ++ CRLF]))
                    (fun _ => false) (fun _ => true)) New)
  = Some ([REPLY_220 ++ CRLF; REPLY_453 ++ CRLF], 1, 1).
Proof. reflexivity. Qed.

(** ** Rounds of the loop *)

(** A round whose read succeeds and whose poll finds no signal goes
    straight to [Valid] and the dispatch. *)
Lemma iteration_read_ok env s envl line :
  ReadString env (Reads s) = (line, false) ->
  Signal env (Polls s) = false ->
  iteration env s envl =
  let '(valid, err, s') := Valid (after_read s) line in
  match valid, err with
  | false, Some err =>
      let (e, s'') := TransmitErr env s' err in
      (if e then Return else Continue, s'', envl)
  | _, _ => dispatch env s' envl line
  end.
Proof.
  intros R G. unfold iteration, read_line. rewrite R.
  cbn -[Valid dispatch TransmitErr]. unfold CheckChanClosed.
  cbn -[Valid dispatch TransmitErr]. rewrite G. reflexivity.
Qed.

(** [Valid] lets every terminated line pass whose verb is none of the
    six verbs it knows, and changes nothing. *)
Lemma Valid_other_verb s c :
  HasSuffix c CRLF = true ->
  ~ In (Verb c) [lit "EHLO"; lit "HELO"; lit "MAIL FROM:"; lit "RCPT TO:";
                 lit "DATA"; lit "QUIT"] ->
  Valid s c = ((true, None), s).
Proof.
  intros T N. unfold Valid. rewrite (ValidLine_terminated c T). simpl failed.
  cbv iota.
  repeat match goal with
  | |- context [str_eqb (Verb c) ?v] =>
      rewrite (str_eqb_neq (Verb c) v) by (intros E; apply N; rewrite E; simpl; tauto)
  end.
  reflexivity.
Qed.

(** A round that reads a line and finds the shutdown signal returns
    before the line is looked at. *)
Lemma iteration_signalled env s envl line :
  ReadString env (Reads s) = (line, false) ->
  Signal env (Polls s) = true ->
  iteration env s envl =
  (Return, snd (CheckChanClosed env (snd (read_line env s))), envl).
Proof.
  intros R G. unfold iteration, read_line. rewrite R.
  cbn -[Valid dispatch TransmitErr]. unfold CheckChanClosed.
  cbn -[Valid dispatch TransmitErr]. rewrite G. reflexivity.
Qed.

Lemma logged_only_pass s c :
  HasSuffix c CRLF = true -> In (Verb c) logged_only ->
  Valid s c = ((true, None), s).
Proof.
  intros T H. apply Valid_other_verb; [assumption|].
  unfold logged_only in H. simpl in H.
  repeat destruct H as [H|H]; try contradiction; rewrite <- H;
    simpl; intros N; repeat destruct N as [N|N]; try discriminate; auto.
Qed.

(** The round of a line whose verb is one of [logged_only]: a line for
    the log, nothing for the peer, and on to the next round. *)
Lemma iteration_logged_only env s envl line :
  ReadString env (Reads s) = (line, false) ->
  Signal env (Polls s) = false ->
  HasSuffix line CRLF = true -> In (Verb line) logged_only ->
  iteration env s envl =
  (Continue,
   Println (after_read s)
           (if str_eqb (Verb line) CRLF then lit "enter" else Verb line),
   envl).
Proof.
  intros R G T H. rewrite (iteration_read_ok env s envl line R G).
  rewrite (logged_only_pass _ line T H). unfold dispatch. cbv zeta.
  unfold logged_only in H. simpl in H.
  repeat destruct H as [H|H]; try contradiction; rewrite <- H;
    eval_verbs; reflexivity.
Qed.

(** [Serve] need not return: with a peer that sends NOOP for ever, the
    loop is still running after any number of rounds. *)
Lemma loop_noop_forever fuel : forall s envl,
  loop fuel noop_forever s envl = None.
Proof.
  induction fuel as [|fuel IH]; intros s envl; [reflexivity|].
  cbn [loop].
  rewrite (iteration_logged_only noop_forever s envl (lit "NOOP" ++ CRLF));
    try reflexivity; auto.
  simpl. tauto.
Qed.

Lemma Serve_noop_forever fuel : Serve fuel noop_forever New = None.
Proof.
  unfold Serve, serve_body. simpl. now rewrite loop_noop_forever.
Qed.

(** C10: a round that reads a blank line or a terminated RSET, NOOP,
    HELP, VRFY or EXPN line (and finds no shutdown signal) sends
    nothing: no flush is attempted and the peer receives no byte; the
    session writes one line to its log and the loop goes on to read the
    next line. *)
Theorem logged_only_verbs_send_nothing env s envl line :
  ReadString env (Reads s) = (line, false) ->
  Signal env (Polls s) = false ->
  line = CRLF \/
  (HasSuffix line CRLF = true /\
   In (Verb line) [lit "RSET"; lit "NOOP"; lit "HELP"; lit "VRFY"; lit "EXPN"]) ->
  let r := iteration env s envl in
  round_flow r = Continue /\
  Sent (round_session r) = Sent s /\
  Flushes (round_session r) = Flushes s /\
  Logged (round_session r) =
    Logged s ++ [if str_eqb line CRLF then lit "enter" else Verb line] /\
  Reads (round_session r) = S (Reads s) /\
  Validity (round_session r) = Validity s /\
  round_envelope r = envl.
Proof.
  intros R G H r.
  assert (T : HasSuffix line CRLF = true) by (destruct H as [->|[T _]]; auto).
  assert (V : In (Verb line) logged_only).
  { destruct H as [->|[_ V]]; [left; reflexivity|right; exact V]. }
  assert (L : str_eqb (Verb line) CRLF = str_eqb line CRLF).
  { unfold Verb. destruct (str_eqb line CRLF) eqn:E; [reflexivity|].
    destruct H as [->|[_ H]]; [discriminate|].
    simpl in H. fold (Verb line).
    unfold Verb in H. rewrite E in H.
    repeat destruct H as [H|H]; try contradiction; rewrite <- H; reflexivity. }
  subst r. rewrite (iteration_logged_only env s envl line R G T V), L.
  repeat split.
Qed.

(** The theorem at a session that has just greeted and reads NOOP. *)
Lemma logged_only_verbs_send_nothing_witness :
  let env := script [lit "noop" ++ CRLF] in
  let s := snd (Transmit env New REPLY_220) in
  Sent (round_session (iteration env s NewEnvelope)) = [REPLY_220 ++ CRLF] /\
  Logged (round_session (iteration env s NewEnvelope)) = [lit "NOOP"].
Proof.
  cbv zeta.
  destruct (logged_only_verbs_send_nothing
              (script [lit "noop" ++ CRLF])
              (snd (Transmit (script [lit "noop" ++ CRLF]) New REPLY_220))
              NewEnvelope (lit "noop" ++ CRLF) eq_refl eq_refl)
    as (_ & S1 & _ & L1 & _).
  - right. split; [reflexivity|]. simpl. tauto.
  - split; [exact S1|exact L1].
Defined.

(** C7: an RSET line passes [Valid] in every state, with no sequencing
    precondition, and the round that reads it leaves the three flags and
    the whole envelope as they were (and, when no shutdown is signalled,
    sends nothing and goes on). *)
Theorem RSET_changes_nothing s line :
  HasSuffix line CRLF = true -> Verb line = lit "RSET" ->
  Valid s line = ((true, None), s) /\
  forall env envl, ReadString env (Reads s) = (line, false) ->
    let r := iteration env s envl in
    HeloFirst (Validity (round_session r)) = HeloFirst (Validity s) /\
    MailFirst (Validity (round_session r)) = MailFirst (Validity s) /\
    RcptFirst (Validity (round_session r)) = RcptFirst (Validity s) /\
    OriginatorAddress (round_envelope r) = OriginatorAddress envl /\
    RecipientAddress (round_envelope r) = RecipientAddress envl /\
    Extension (round_envelope r) = Extension envl /\
    (Signal env (Polls s) = false ->
     round_flow r = Continue /\ Sent (round_session r) = Sent s).
Proof.
  intros T V.
  assert (L : In (Verb line) logged_only) by (rewrite V; simpl; tauto).
  split; [now apply logged_only_pass|].
  intros env envl R r. subst r.
  destruct (Signal env (Polls s)) eqn:G.
  - rewrite (iteration_signalled env s envl line R G).
    unfold round_session, round_envelope. cbn [fst snd].
    destruct (CheckChanClosed_io env (snd (read_line env s))) as (-> & _).
    repeat split; discriminate.
  - rewrite (iteration_logged_only env s envl line R G T L).
    repeat split.
Qed.

(** The theorem at a session that has a sender and a recipient. *)
Lemma RSET_changes_nothing_witness :
  let s := mkSession (mkValidity true true true) 3 4 3 [] [] 0 0 in
  Valid s (lit "RSET" ++ CRLF) = ((true, None), s).
Proof.
  cbv zeta.
  exact (proj1 (RSET_changes_nothing
                  (mkSession (mkValidity true true true) 3 4 3 [] [] 0 0)
                  (lit "RSET" ++ CRLF) eq_refl eq_refl)).
Defined.

Lemma Valid_RCPT_ungreeted s c :
  HeloFirst (Validity s) = false -> HasSuffix c CRLF = true ->
  Verb c = lit "RCPT TO:" ->
  Valid s c = ((false, Some ehloFirstErr), s).
Proof.
  intros H T V. unfold Valid.
  rewrite (ValidLine_terminated c T), V, H. reflexivity.
Qed.

(** C3: a RCPT TO: line as the first command of a fresh session fails
    in [Valid] with a sequencing error, whatever its argument: the
    greeting-required one, as [HeloFirst] is tested before [MailFirst].
    It is one of the 503 5.5.1 replies, it is the reply sent, and
    neither the envelope nor the flags change. *)
Theorem RCPT_first_is_BadSequence s line :
  Validity s = Validity New ->
  HasSuffix line CRLF = true -> Verb line = lit "RCPT TO:" ->
  Valid s line = ((false, Some ehloFirstErr), s) /\
  kind_of ehloFirstErr = BadSequence /\
  HasPrefix (Error ehloFirstErr) (lit "503 5.5.1 ") = true /\
  forall env envl,
    ReadString env (Reads s) = (line, false) ->
    Signal env (Polls s) = false ->
    let r := iteration env s envl in
    round_envelope r = envl /\
    RecipientAddress (round_envelope r) = RecipientAddress envl /\
    Validity (round_session r) = Validity s /\
    (FlushFails env (Flushes s) = false ->
     round_flow r = Continue /\
     Sent (round_session r) = Sent s ++ [Error ehloFirstErr ++ CRLF]).
Proof.
  intros F T V.
  assert (H : forall x, Validity x = Validity s ->
                        Valid x line = ((false, Some ehloFirstErr), x)).
  { intros x E. apply Valid_RCPT_ungreeted; auto. now rewrite E, F. }
  split; [now apply H|]. split; [reflexivity|]. split; [reflexivity|].
  intros env envl R G r. subst r.
  rewrite (iteration_read_ok env s envl line R G), (H (after_read s) eq_refl).
  unfold TransmitErr, Transmit, round_envelope, round_session, round_flow.
  cbn [fst snd Flushes after_read Sent Validity].
  split; [reflexivity|]. split; [reflexivity|]. split; [reflexivity|].
  intros W. rewrite W. split; reflexivity.
Qed.

(** The theorem at the specification's scenario: the line
    [RCPT TO:<c@d.com>] is the first one after the greeting. *)
Lemma RCPT_first_is_BadSequence_witness :
  let env := script [lit "RCPT TO:<c@d.com>" ++ CRLF] in
  let s := snd (Transmit env New REPLY_220) in
  Sent (round_session (iteration env s NewEnvelope)) =
    [REPLY_220 ++ CRLF; lit "503 5.5.1 HELO/EHLO first" ++ CRLF] /\
  round_envelope (iteration env s NewEnvelope) = NewEnvelope.
Proof.
  cbv zeta.
  destruct (RCPT_first_is_BadSequence
              (snd (Transmit (script [lit "RCPT TO:<c@d.com>" ++ CRLF]) New REPLY_220))
              (lit "RCPT TO:<c@d.com>" ++ CRLF) eq_refl eq_refl eq_refl)
    as (_ & _ & _ & H).
  destruct (H (script [lit "RCPT TO:<c@d.com>" ++ CRLF]) NewEnvelope
              eq_refl eq_refl) as (E & _ & _ & W).
  destruct (W eq_refl) as [_ S1].
  split; [exact S1|exact E].
Defined.

Lemma HasSuffix_spec s suffix :
  HasSuffix s suffix = true <-> exists p, s = p ++ suffix.
Proof.
  unfold HasSuffix. rewrite andb_true_iff, Nat.leb_le, str_eqb_eq. split.
  - intros [L E]. exists (firstn (length s - length suffix) s).
    pose proof (firstn_skipn (length s - length suffix) s) as K.
    rewrite E in K. now symmetry.
  - intros [p ->]. rewrite length_app. split; [lia|].
    replace (length p + length suffix - length suffix) with (length p) by lia.
    rewrite skipn_app, skipn_all, Nat.sub_diag. reflexivity.
Qed.

(** A line that does not end in a line feed does not end in the
    terminator. *)
Lemma no_LF_no_CRLF line :
  HasSuffix line [LF] = false -> HasSuffix line CRLF = false.
Proof.
  intros H. destruct (HasSuffix line CRLF) eqn:E; [|reflexivity].
  apply HasSuffix_spec in E. destruct E as [p ->].
  assert (F : HasSuffix (p ++ CRLF) [LF] = true).
  { apply HasSuffix_spec. exists (p ++ [CR]). now rewrite <- app_assoc. }
  congruence.
Qed.

Lemma Valid_unterminated s c :
  HasSuffix c CRLF = false -> Valid s c = ((false, Some syntaxErr), s).
Proof.
  intros H. unfold Valid. now rewrite (ValidLine_unterminated c H).
Qed.

(** C5: a round whose read fails, with no shutdown signalled.  The 453
    reply is sent; what was read does not end in the terminator, so the
    syntax-error reply follows; and the loop goes on.  The round returns
    from [Serve] exactly when one of these two replies cannot be
    flushed.  Flags and envelope stay as they were. *)
Theorem read_error_is_not_fatal env s envl :
  ReadString_contract env ->
  snd (ReadString env (Reads s)) = true ->
  Signal env (Polls s) = false ->
  let r := iteration env s envl in
  (FlushFails env (Flushes s) = false ->
   exists rest, Sent (round_session r) = Sent s ++ (REPLY_453 ++ CRLF) :: rest) /\
  (FlushFails env (Flushes s) = false ->
   FlushFails env (S (Flushes s)) = false ->
   round_flow r = Continue /\
   Reads (round_session r) = S (Reads s) /\
   Sent (round_session r) =
     Sent s ++ [REPLY_453 ++ CRLF; Error syntaxErr ++ CRLF]) /\
  (round_flow r = Return <->
   FlushFails env (Flushes s) = true \/
   FlushFails env (S (Flushes s)) = true) /\
  Validity (round_session r) = Validity s /\
  round_envelope r = envl.
Proof.
  intros C E G r.
  assert (Er : r = iteration env s envl) by reflexivity. clearbody r.
  specialize (C (Reads s)). rewrite E in C.
  unfold iteration, read_line in Er.
  destruct (ReadString env (Reads s)) as [line rerr]. simpl in E, C. subst rerr.
  assert (U : HasSuffix line CRLF = false).
  { apply no_LF_no_CRLF. now destruct (HasSuffix line [LF]). }
  unfold Transmit at 1 in Er.
  cbn [Flushes Sent Validity Reads Polls Logged ConnClosed WgDone] in Er.
  destruct (FlushFails env (Flushes s)) eqn:F1.
  - subst r. repeat split; try discriminate; auto.
  - unfold CheckChanClosed in Er.
    cbn [Flushes Sent Validity Reads Polls Logged ConnClosed WgDone] in Er.
    rewrite G, (Valid_unterminated _ line U) in Er.
    unfold TransmitErr, Transmit in Er.
    cbn [Flushes Sent Validity Reads Polls Logged ConnClosed WgDone] in Er.
    destruct (FlushFails env (S (Flushes s))) eqn:F2; subst r;
      unfold round_flow, round_session, round_envelope;
      cbn [fst snd Flushes Sent Validity Reads Polls Logged ConnClosed WgDone].
    + repeat split; try discriminate; auto.
      eexists. reflexivity.
    + repeat split; try discriminate.
      * eexists. rewrite <- app_assoc. reflexivity.
      * now rewrite <- app_assoc.
      * intros [H|H]; discriminate.
Qed.

(** The theorem at a peer that has closed its side: the read fails with
    nothing read. *)
Lemma read_error_is_not_fatal_witness :
  let env := script [] in
  let s := snd (Transmit env New REPLY_220) in
  round_flow (iteration env s NewEnvelope) = Continue /\
  Sent (round_session (iteration env s NewEnvelope)) =
    [REPLY_220 ++ CRLF; REPLY_453 ++ CRLF; Error syntaxErr ++ CRLF].
Proof.
  cbv zeta.
  assert (C : ReadString_contract (script [])).
  { intros n. simpl. now destruct n. }
  destruct (read_error_is_not_fatal (script [])
              (snd (Transmit (script []) New REPLY_220)) NewEnvelope
              C eq_refl eq_refl) as (_ & H & _).
  destruct (H eq_refl eq_refl) as (F & _ & S1).
  split; [exact F|exact S1].
Defined.

Lemma Valid_Flushes s c : Flushes (snd (Valid s c)) = Flushes s.
Proof. now rewrite Valid_frame. Qed.

(** A round in which the read, the poll and the flush go well is the
    round of the quiet environment. *)
Lemma iteration_quiet env s envl line :
  ReadString env (Reads s) = (line, false) ->
  Signal env (Polls s) = false ->
  FlushFails env (Flushes s) = false ->
  iteration env s envl = iteration (quiet line) s envl.
Proof.
  intros R G F.
  rewrite (iteration_read_ok env s envl line R G).
  rewrite (iteration_read_ok (quiet line) s envl line eq_refl eq_refl).
  pose proof (Valid_Flushes (after_read s) line) as V.
  destruct (Valid (after_read s) line) as [[valid err] s']. simpl in V.
  assert (T : forall text, Transmit env s' text = Transmit (quiet line) s' text).
  { intros text. unfold Transmit. now rewrite V, F. }
  destruct valid, err as [err|];
    unfold TransmitErr, dispatch, reply; now rewrite ?T.
Qed.

(** C2: a fresh session whose greeting was sent reads the five lines of
    the scenario, with every read and flush going well and no shutdown
    signalled.  It sends 250, 250, the 250 of a recipient, 354 and 221,
    in this order; then the loop ends, and [Serve] closes the
    connection. *)
Theorem scenario_replies env fuel :
  (forall n line, nth_error scenario n = Some line ->
                  ReadString env n = (line, false)) ->
  (forall n, n <= 5 -> FlushFails env n = false) ->
  (forall n, n < 5 -> Signal env n = false) ->
  5 <= fuel ->
  let greeted := snd (Transmit env New REPLY_220) in
  Sent greeted = [REPLY_220 ++ CRLF] /\
  exists s envl,
    loop fuel env greeted NewEnvelope = Some (s, envl) /\
    Sent s = Sent greeted ++
             [REPLY_250 ++ CRLF; REPLY_250 ++ CRLF; REPLY_250_RCPT ++ CRLF;
              REPLY_354 ++ CRLF; REPLY_221 ++ CRLF] /\
    Reads s = 5 /\
    Validity s = mkValidity true true true /\
    envl = mkEnvelope (lit "a@b.com") [lit "c@d.com"] [] /\
    Serve fuel env New = Some (Close s, envl) /\
    ConnClosed (Close s) = 1 /\ WgDone (Close s) = 1.
Proof.
  intros Hr Hf Hs Hfuel greeted.
  assert (F0 : FlushFails env 0 = false) by (apply Hf; lia).
  assert (Eg : greeted = mkSession (mkValidity false false false) 0 1 0
                                   [REPLY_220 ++ CRLF] [] 0 0).
  { unfold greeted, Transmit. simpl. now rewrite F0. }
  split; [now rewrite Eg|].
  unfold Serve, serve_body.
  assert (Et : Transmit env New REPLY_220 = (false, greeted)).
  { unfold greeted, Transmit. simpl. now rewrite F0. }
  rewrite Et. clear Et. rewrite Eg. clear Eg greeted.
  do 5 (destruct fuel as [|fuel]; [lia|]).
  do 5 (cbn [loop];
    match goal with |- context [iteration env ?s ?e] =>
      let n := eval vm_compute in (Reads s) in
      let l := eval vm_compute in (nth n scenario []) in
      rewrite (iteration_quiet env s e l)
        by first [ apply Hr; reflexivity
                 | apply Hs; vm_compute; lia
                 | apply Hf; vm_compute; lia ];
      let v := eval vm_compute in (iteration (quiet l) s e) in
      change (iteration (quiet l) s e) with v; cbv iota beta
    end).
  eexists. eexists. repeat split.
Qed.

(** The theorem at the peer that sends the five lines and closes. *)
Lemma scenario_replies_witness :
  exists s envl,
    Serve 5 (script scenario) New = Some (s, envl) /\
    Sent s = [REPLY_220 ++ CRLF; REPLY_250 ++ CRLF; REPLY_250 ++ CRLF;
              REPLY_250_RCPT ++ CRLF; REPLY_354 ++ CRLF; REPLY_221 ++ CRLF] /\
    ConnClosed s = 1.
Proof.
  assert (Hr : forall n line, nth_error scenario n = Some line ->
                 ReadString (script scenario) n = (line, false)).
  { intros n line H. unfold script. cbn [ReadString]. now rewrite H. }
  destruct (scenario_replies (script scenario) 5 Hr
              (fun _ _ => eq_refl) (fun _ _ => eq_refl) (le_n 5))
    as (_ & s & envl & L & S1 & _ & _ & _ & E & C & _).
  exists (Close s), envl. split; [exact E|]. split; [exact S1|exact C].
Defined.

(** ** The package's tests, run on the embedding *)

(** [TestCommandValidLine] *)
Example test_ValidLine :
  map ValidLine [[]; CRLF; lit "HELLO"]
  = [(false, Some syntaxErr); (true, None); (false, Some syntaxErr)].
Proof. reflexivity. Qed.

(** [TestCommandVerb] *)
Example test_Verb :
  map Verb [CRLF; terminated "DATA"; terminated "data"; terminated "rset"; terminated "quit";
            terminated "NOOP"; terminated "EHLO some-string"; terminated "helo some-string";
            terminated "noop some-string"; terminated "HELP some-string";
            terminated "expn some-string"; terminated "vrfy some-string";
            terminated "MAIL FROM: some-string"; terminated "mail from: some-string";
            terminated "RCPT TO: some-string"; terminated "rcpt to: some-string"]
  = [CRLF; lit "DATA"; lit "DATA"; lit "RSET"; lit "QUIT";
     lit "NOOP"; lit "EHLO"; lit "HELO";
     lit "NOOP"; lit "HELP";
     lit "EXPN"; lit "VRFY";
     lit "MAIL FROM:"; lit "MAIL FROM:";
     lit "RCPT TO:"; lit "RCPT TO:"].
Proof. reflexivity. Qed.

(** [TestCommandArg] *)
Example test_Arg :
  map Arg [CRLF; terminated "EHLO some-string"; terminated "helo some-string";
           terminated "NOOP some-string"; terminated "vrfy some-string";
           terminated "MAIL FROM:<reverse-path> <mail-parameter>";
           terminated "mail from: <reverse-path> <mail-parameter>"]
  = [[]; lit "some-string"; lit "some-string";
     lit "some-string"; lit "some-string";
     lit "<reverse-path> <mail-parameter>";
     lit "<reverse-path> <mail-parameter>"].
Proof. reflexivity. Qed.

(** [TestValidityOfHelloCommand] *)
Example test_ValidHello :
  map ValidHello [terminated "EHLO mail.domain.com"; terminated "EHLO mail.domain.com ";
                  terminated "EHLO"; terminated "EHLO "; terminated "EHLO mail.domain.com test";
                  terminated "HELO mail.domain.com test 1 2 3"]
  = [(true, None); (true, None);
     (false, Some invalidCommandArgErr); (false, Some invalidCommandArgErr);
     (false, Some invalidCommandArgErr); (false, Some invalidCommandArgErr)].
Proof. reflexivity. Qed.

(** [TestCommandEmailAddress] *)
Example test_EmailAddress :
  map EmailAddress
      [terminated "EHLO ubuntu-trusty";
       terminated "MAIL FROM:<some@domain.com>";
       terminated "MAIL FROM:<some12-ds@sub.domain.com> with-extension";
       terminated "MAIL FROM:<some.anot-her@sub.domain.com> with-extension";
       terminated "RCPT TO:<@host.io:some@domain.com> with-extension";
       terminated "RCPT TO:<@host.io,@abchost.com:some@domain.com> with-extension"]
  = [[]; lit "some@domain.com"; lit "some12-ds@sub.domain.com";
     lit "some.anot-her@sub.domain.com"; lit "some@domain.com";
     lit "some@domain.com"].
Proof. reflexivity. Qed.

(** [TestValidityOfMailCommand] *)
Example test_ValidMail :
  map ValidMail
      [terminated "MAIL FROM:"; terminated "MAIL FROM: ";
       terminated "MAIL FROM: some invalid argument";
       terminated "MAIL FROM: some@valid.email.com";
       terminated "MAIL FROM:<invalid-email>";
       terminated "MAIL FROM:<some@valid-email.com,twice@appear.this.com>";
       terminated "MAIL FROM:<some@valid.email.com>";
       terminated "MAIL FROM: <some@valid.email.com>"]
  = [(false, Some syntaxErr); (false, Some syntaxErr);
     (false, Some invalidCommandArgErr);
     (false, Some invalidCommandArgErr);
     (false, Some invalidCommandArgErr);
     (false, Some invalidCommandArgErr);
     (true, None);
     (true, None)].
Proof. reflexivity. Qed.

(** [TestValidityOfRcptCommand] *)
Example test_ValidRcpt :
  map ValidRcpt
      [terminated "RCPT TO:"; terminated "RCPT TO: "; terminated "RCPT TO: some random arg";
       terminated "RCPT TO:<invalid formatted email>";
       terminated "RCPT TO:<some@email.com,some@anothermail.com>";
       terminated "RCPT TO: <@hostA.io,@hostB.io:some@email.com,some@anohet.com>"]
  = [(false, Some syntaxErr); (false, Some syntaxErr); (false, Some syntaxErr);
     (false, Some invalidRcptEmailErr);
     (false, Some invalidRcptEmailErr);
     (false, Some invalidRcptEmailErr)].
Proof. reflexivity. Qed.

(** [TestValidityOfDataCommand] *)
Example test_ValidData :
  map ValidData [terminated "DATA"; terminated "data"; terminated "DATA ";
                 terminated "DATA plus argument"]
  = [(true, None); (true, None); (true, None); (false, Some syntaxErr)].
Proof. reflexivity. Qed.

(** [TestValidityOfQuitCommand] *)
Example test_ValidQuit :
  map ValidQuit [terminated "QUIT"; terminated "QUIT "; terminated "QUIT argument";
                 terminated "QUIT some argument "]
  = [(true, None); (true, None);
     (false, Some invalidCommandArgErr); (false, Some invalidCommandArgErr)].
Proof. reflexivity. Qed.

(** * Further properties of the parser *)





Lemma ToUpper_app a b : ToUpper (a ++ b) = ToUpper a ++ ToUpper b.
Proof. apply map_app. Qed.

























Lemma skipn_exact {A} (p r : list A) : skipn (length p) (p ++ r) = r.
Proof. now rewrite skipn_app, skipn_all, Nat.sub_diag. Qed.















(** * Further properties of the validators *)

Lemma Split_at_sep tok sep rest :
  ~ In sep tok -> Split (tok ++ sep :: rest) sep = tok :: Split rest sep.
Proof.
  induction tok as [|c tok IH]; simpl; intros H.
  - now rewrite Ascii.eqb_refl.
  - destruct (Ascii.eqb c sep) eqn:E.
    + apply Ascii.eqb_eq in E. subst. tauto.
    + rewrite IH by tauto. reflexivity.
Qed.

(** A split has more than one piece exactly when the separator occurs. *)
Lemma Split_pieces s sep : (1 <? length (Split s sep)) = true <-> In sep s.
Proof.
  split.
  - intros H. destruct (in_dec ascii_dec sep s) as [I|N]; [exact I|].
    rewrite (Split_no_sep s sep N) in H. discriminate.
  - intros I. destruct (first_occurrence _ _ I) as (p & q & -> & Hp).
    rewrite (Split_at_sep p sep q Hp). simpl.
    pose proof (Split_not_nil q sep). now destruct (Split q sep).
Qed.

(** X5: [ValidLine] accepts exactly the lines that end in CR LF.  Every
    other line, the empty one and one that ends in a bare LF included,
    gets the syntax error. *)
Theorem ValidLine_cases (c : command) :
  (ValidLine c = (true, None) <-> exists p, c = p ++ CRLF) /\
  (ValidLine c = (false, Some syntaxErr) <-> ~ exists p, c = p ++ CRLF) /\
  ValidLine [] = (false, Some syntaxErr) /\
  (forall p, ValidLine (p ++ [LF]) = (true, None) ->
             exists p', p = p' ++ [CR]).
Proof.
  pose proof (HasSuffix_spec c CRLF) as S.
  assert (A : ValidLine c = (true, None) <-> exists p, c = p ++ CRLF).
  { destruct (HasSuffix c CRLF) eqn:E.
    - rewrite (ValidLine_terminated c E). tauto.
    - rewrite (ValidLine_unterminated c E). split; [discriminate|].
      intros H. apply S in H. discriminate. }
  split; [exact A|]. split; [|split; [reflexivity|]].
  - destruct (HasSuffix c CRLF) eqn:E.
    + rewrite (ValidLine_terminated c E). split; [discriminate|].
      intros N. exfalso. apply N. now apply S.
    + rewrite (ValidLine_unterminated c E). split; [|reflexivity].
      intros _ H. apply S in H. discriminate.
  - intros p H.
    destruct (HasSuffix (p ++ [LF]) CRLF) eqn:E.
    + apply HasSuffix_spec in E. destruct E as [p' E]. exists p'.
      change CRLF with ([CR] ++ [LF]) in E. rewrite app_assoc in E.
      now apply app_inj_tail in E.
    + rewrite (ValidLine_unterminated _ E) in H. discriminate.
Qed.

(** X6: [ValidHello] accepts exactly the arguments that are not empty
    and have no space character in them; every other argument gets the
    invalid-arguments error.  A tab inside the argument does not count
    as a separator. *)
Theorem ValidHello_cases (c : command) :
  (ValidHello c = (true, None) <->
   Arg c <> [] /\ ~ In " "%char (Arg c)) /\
  (ValidHello c = (false, Some invalidCommandArgErr) <->
   Arg c = [] \/ In " "%char (Arg c)).
Proof.
  unfold ValidHello. pose proof (Split_pieces (Arg c) " "%char) as P.
  destruct (str_eqb (Arg c) []) eqn:E.
  - apply str_eqb_eq in E. rewrite E. simpl.
    split; split; try discriminate; tauto.
  - assert (N : Arg c <> []) by (intros H; rewrite H in E; discriminate).
    simpl. destruct (1 <? length (Split (Arg c) " ")).
    + assert (I : In " "%char (Arg c)) by now apply P.
      split; split; try discriminate; tauto.
    + assert (I : ~ In " "%char (Arg c)).
      { intros I. apply P in I. discriminate. }
      split; split; try discriminate; tauto.
Qed.

Lemma matches_within P r s :
  classes_within P r -> matches r s -> forallb P s = true.
Proof.
  intros C M. induction M; simpl in *; try reflexivity.
  - rewrite (C c H). reflexivity.
  - rewrite forallb_app, IHM1, IHM2; tauto.
  - tauto.
  - tauto.
  - rewrite forallb_app, IHM1, IHM2; tauto.
Qed.

Lemma matches_Star_Cls p s :
  matches (Star (Cls p)) s <-> forallb p s = true.
Proof.
  split.
  - apply matches_within. simpl. auto.
  - induction s as [|c s IH]; simpl; [constructor|].
    rewrite andb_true_iff. intros [Hc Hs].
    change (c :: s) with ([c] ++ s). constructor; [now constructor|auto].
Qed.

Lemma matches_Plus_Cls p s :
  matches (Plus (Cls p)) s <-> s <> [] /\ forallb p s = true.
Proof.
  unfold Plus. rewrite matches_Cat. split.
  - intros (a & b & -> & Ha & Hb). inversion Ha; subst.
    apply matches_Star_Cls in Hb. simpl. split; [discriminate|].
    now rewrite H0, Hb.
  - intros [N H]. destruct s as [|c s]; [contradiction|]. simpl in H.
    apply andb_true_iff in H. destruct H as [Hc Hs].
    exists [c], s. repeat split; [now constructor|now apply matches_Star_Cls].
Qed.

Lemma MatchString_rArgSyntax a :
  MatchString rArgSyntax a = true <-> has_angle_envelope a.
Proof.
  rewrite MatchString_spec. unfold has_angle_envelope, rArgSyntax. split.
  - intros (pre & m & post & -> & H).
    apply matches_Cat in H. destruct H as (o & m1 & -> & Ho & H).
    apply matches_Chr in Ho. subst o.
    apply matches_Cat in H. destruct H as (body & z & -> & Hb & Hz).
    apply matches_Chr in Hz. subst z.
    apply matches_Plus_Cls in Hb. destruct Hb as [N F].
    exists pre, body, post. simpl. rewrite <- app_assoc. simpl. auto.
  - intros (pre & body & post & -> & N & F).
    exists pre, ("<"%char :: body ++ [">"%char]), post. split.
    + simpl. rewrite <- app_assoc. reflexivity.
    + change ("<"%char :: body ++ [">"%char])
        with (["<"%char] ++ body ++ [">"%char]).
      constructor; [now apply matches_Chr|].
      constructor; [|now apply matches_Chr].
      apply matches_Plus_Cls. auto.
Qed.

Lemma matches_rRcptArg m :
  matches rRcptArg m <->
  exists route addr,
    m = "<"%char :: route ++ addr ++ [">"%char] /\
    matches source_route route /\ matches rMailAddr addr.
Proof.
  unfold rRcptArg, source_route, rMailAddr. split.
  - intros H.
    apply matches_Cat in H. destruct H as (o & m1 & -> & Ho & H).
    apply matches_Chr in Ho. subst o.
    apply matches_Cat in H. destruct H as (hops & m2 & -> & Hh & H).
    apply matches_Cat in H. destruct H as (colon & m3 & -> & Hc & H).
    apply matches_Cat in H. destruct H as (l & m4 & -> & Hl & H).
    apply matches_Cat in H. destruct H as (at_ & m5 & -> & Hat & H).
    apply matches_Cat in H. destruct H as (d & z & -> & Hd & Hz).
    apply matches_Chr in Hz. subst z.
    exists (hops ++ colon), (l ++ at_ ++ d). split.
    + simpl. now rewrite <- !app_assoc.
    + split; repeat (constructor; try assumption).
  - intros (route & addr & -> & Hr & Ha).
    apply matches_Cat in Hr. destruct Hr as (hops & colon & -> & Hh & Hc).
    apply matches_Cat in Ha. destruct Ha as (l & m2 & -> & Hl & H).
    apply matches_Cat in H. destruct H as (at_ & d & -> & Hat & Hd).
    change ("<"%char :: (hops ++ colon) ++ (l ++ at_ ++ d) ++ [">"%char])
      with (["<"%char] ++ (hops ++ colon) ++ (l ++ at_ ++ d) ++ [">"%char]).
    rewrite <- !app_assoc.
    repeat (constructor; try assumption); now apply matches_Chr.
Qed.

Lemma MatchString_rRcptArg a :
  MatchString rRcptArg a = true <-> has_forward_path a.
Proof.
  rewrite MatchString_spec. unfold has_forward_path. split.
  - intros (pre & m & post & -> & H).
    apply matches_rRcptArg in H. destruct H as (route & addr & -> & Hr & Ha).
    exists pre, route, addr, post. split; [|auto].
    simpl. now rewrite <- !app_assoc.
  - intros (pre & route & addr & post & -> & Hr & Ha).
    exists pre, ("<"%char :: route ++ addr ++ [">"%char]), post. split.
    + simpl. now rewrite <- !app_assoc.
    + apply matches_rRcptArg. eauto.
Qed.

Lemma rMailAddr_within : classes_within not_LF rMailAddr.
Proof.
  simpl. repeat split; intros c; each_byte c; vm_compute; congruence.
Qed.

Lemma source_route_within : classes_within not_LF source_route.
Proof.
  simpl. repeat split; try exact I;
    intros c; each_byte c; vm_compute; congruence.
Qed.

(** An address of the pattern has an [@] in it. *)
Lemma rMailAddr_has_at addr : matches rMailAddr addr -> In "@"%char addr.
Proof.
  unfold rMailAddr. intros H.
  apply matches_Cat in H. destruct H as (l & m & -> & _ & H).
  apply matches_Cat in H. destruct H as (at_ & d & -> & Hat & _).
  apply matches_Chr in Hat. subst at_.
  apply in_or_app. right. now left.
Qed.

Lemma forward_path_is_envelope a : has_forward_path a -> has_angle_envelope a.
Proof.
  intros (pre & route & addr & post & -> & Hr & Ha).
  exists pre, (route ++ addr), post. rewrite <- app_assoc. split; [reflexivity|].
  split.
  - intros E. apply app_eq_nil in E. destruct E as [_ ->].
    now apply rMailAddr_has_at in Ha.
  - rewrite forallb_app.
    rewrite (matches_within _ _ _ source_route_within Hr).
    now rewrite (matches_within _ _ _ rMailAddr_within Ha).
Qed.

(** X7: [ValidRcpt] fails with the syntax error exactly when the
    argument has no angle-bracket envelope (the empty argument has
    none); it fails with the invalid-recipient error exactly when the
    argument has an envelope and no forward path (optional source route
    and address between angle brackets); it succeeds exactly when the
    argument has a forward path. *)
Theorem ValidRcpt_cases (c : command) :
  (ValidRcpt c = (false, Some syntaxErr) <-> ~ has_angle_envelope (Arg c)) /\
  (ValidRcpt c = (false, Some invalidRcptEmailErr) <->
   has_angle_envelope (Arg c) /\ ~ has_forward_path (Arg c)) /\
  (ValidRcpt c = (true, None) <-> has_forward_path (Arg c)).
Proof.
  unfold ValidRcpt.
  pose proof (MatchString_rArgSyntax (Arg c)) as S.
  pose proof (MatchString_rRcptArg (Arg c)) as R.
  pose proof (forward_path_is_envelope (Arg c)) as FE.
  assert (E0 : Arg c = [] -> ~ has_angle_envelope (Arg c)).
  { intros -> (pre & body & post & E & _). destruct pre; discriminate. }
  destruct (str_eqb (Arg c) []) eqn:E.
  - apply str_eqb_eq in E. specialize (E0 E). simpl.
    repeat split; try discriminate; tauto.
  - simpl. destruct (MatchString rArgSyntax (Arg c)); simpl.
    + assert (has_angle_envelope (Arg c)) by now apply S.
      destruct (MatchString rRcptArg (Arg c)); simpl.
      * assert (has_forward_path (Arg c)) by now apply R.
        repeat split; try discriminate; tauto.
      * assert (~ has_forward_path (Arg c)).
        { intros H'. apply R in H'. discriminate. }
        repeat split; try discriminate; tauto.
    + assert (~ has_angle_envelope (Arg c)).
      { intros H'. apply S in H'. discriminate. }
      repeat split; try discriminate; tauto.
Qed.

Lemma firstn_prefix {A} (s1 rest : list A) :
  firstn (length (s1 ++ rest) - length rest) (s1 ++ rest) = s1.
Proof.
  replace (length (s1 ++ rest) - length rest) with (length s1)
    by (rewrite length_app; lia).
  now rewrite firstn_app, firstn_all, Nat.sub_diag, app_nil_r.
Qed.

Lemma run_rest_none re s :
  run re s (fun rest => Some rest) = None <-> match_here re s = false.
Proof.
  unfold match_here. split.
  - intros N. destruct (run re s (fun _ => Some tt)) eqn:E; [|reflexivity].
    apply run_sound in E. destruct E as (s1 & s2 & -> & M & _).
    destruct (run_complete re s1 M s2 (fun rest => Some rest) s2 eq_refl).
    congruence.
  - destruct (run re s (fun _ => Some tt)) eqn:E; [discriminate|]. intros _.
    destruct (run re s (fun rest => Some rest)) eqn:F; [|reflexivity].
    apply run_sound in F. destruct F as (s1 & s2 & -> & M & _).
    destruct (run_complete re s1 M s2 (fun _ => Some tt) tt eq_refl).
    congruence.
Qed.

(** [FindString] gives the empty string when nothing matches, and else a
    substring in the language of the pattern before which no match
    starts. *)
Lemma FindString_spec re s :
  (MatchString re s = false /\ FindString re s = []) \/
  (exists pre post,
     s = pre ++ FindString re s ++ post /\ matches re (FindString re s) /\
     forall k, k < length pre -> match_here re (skipn k s) = false).
Proof.
  induction s as [|c s IH].
  - simpl. destruct (run re [] (fun rest => Some rest)) as [rest|] eqn:E.
    + right. apply run_sound in E. destruct E as (s1 & s2 & E & M & _).
      symmetry in E. apply app_eq_nil in E. destruct E as [-> ->].
      exists [], []. simpl. repeat split; auto. intros k H. lia.
    + left. apply run_rest_none in E. now rewrite E.
  - cbn [FindString MatchString].
    destruct (run re (c :: s) (fun rest => Some rest)) as [rest|] eqn:E.
    + right. apply run_sound in E. destruct E as (s1 & s2 & E & M & [= ->]).
      exists [], rest. rewrite E, firstn_prefix.
      repeat split; auto. intros k H. simpl in H. lia.
    + apply run_rest_none in E. rewrite E. cbn [orb].
      destruct IH as [[N F]|(pre & post & D & M & L)]; [now left|right].
      exists (c :: pre), post. split; [simpl; now f_equal|]. split; [exact M|].
      intros [|k] H; [exact E|]. simpl. apply L. simpl in H. lia.
Qed.

(** X8: [EmailAddress] is empty exactly when the argument has no
    address of the pattern in it.  Otherwise it is a part of the
    argument, it is an address of the pattern, and no address of the
    pattern starts further left in the argument. *)
Theorem EmailAddress_spec (c : command) :
  (EmailAddress c = [] <-> MatchString rMailAddr (Arg c) = false) /\
  (EmailAddress c <> [] ->
   exists pre post,
     Arg c = pre ++ EmailAddress c ++ post /\
     matches rMailAddr (EmailAddress c) /\
     forall k, k < length pre ->
       ~ exists m rest, skipn k (Arg c) = m ++ rest /\ matches rMailAddr m).
Proof.
  unfold EmailAddress.
  destruct (FindString_spec rMailAddr (Arg c)) as [[N F]|(pre & post & D & M & L)].
  - rewrite F, N. split; [tauto|]. intros H. contradiction.
  - assert (T : MatchString rMailAddr (Arg c) = true).
    { apply MatchString_spec. eauto. }
    split.
    + split; intros H; [|congruence].
      rewrite H in M. now apply rMailAddr_has_at in M.
    + intros _. exists pre, post. repeat split; auto.
      intros k Hk H. apply match_here_spec in H. rewrite (L k Hk) in H.
      discriminate.
Qed.

(** The theorem at an argument whose first address is not the one
    between the angle brackets. *)
Lemma EmailAddress_spec_witness :
  let c := lit "MAIL FROM:x@y.zz <a@b.cd>" ++ CRLF in
  ValidMail c = (true, None) /\ EmailAddress c = lit "x@y.zz" /\
  exists pre post, Arg c = pre ++ EmailAddress c ++ post /\
                   matches rMailAddr (EmailAddress c).
Proof.
  cbv zeta. split; [reflexivity|]. split; [reflexivity|].
  destruct (proj2 (EmailAddress_spec (lit "MAIL FROM:x@y.zz <a@b.cd>" ++ CRLF)))
    as (pre & post & D & M & _); [discriminate|].
  exists pre, post. auto.
Defined.

Lemma bracketed_address_found a :
  has_bracketed_address a -> MatchString rMailAddr a = true.
Proof.
  intros (pre & addr & post & -> & M). apply MatchString_spec.
  exists (pre ++ ["<"%char]), addr, (">"%char :: post). split; [|exact M].
  now rewrite <- app_assoc.
Qed.

Lemma forward_path_found a :
  has_forward_path a -> MatchString rMailAddr a = true.
Proof.
  intros (pre & route & addr & post & -> & _ & M). apply MatchString_spec.
  exists (pre ++ "<"%char :: route), addr, (">"%char :: post).
  split; [|exact M]. now rewrite <- app_assoc.
Qed.

(** X9: what [ValidMail] or [ValidRcpt] accepts has an address to
    extract: [EmailAddress] is then a part of the argument and an
    address of the pattern, so it is not empty and has an [@]. *)
Theorem accepted_has_address (c : command) :
  ValidMail c = (true, None) \/ ValidRcpt c = (true, None) ->
  exists pre post,
    Arg c = pre ++ EmailAddress c ++ post /\
    matches rMailAddr (EmailAddress c) /\
    In "@"%char (EmailAddress c).
Proof.
  intros H.
  assert (T : MatchString rMailAddr (Arg c) = true).
  { destruct H as [H|H].
    - apply bracketed_address_found. unfold ValidMail in H.
      apply MatchString_rMailArg.
      destruct (str_eqb (Arg c) []); [discriminate|].
      now destruct (MatchString rMailArg (Arg c)).
    - apply forward_path_found. unfold ValidRcpt in H.
      apply MatchString_rRcptArg.
      destruct (str_eqb (Arg c) [] || negb (MatchString rArgSyntax (Arg c)));
        [discriminate|].
      now destruct (MatchString rRcptArg (Arg c)). }
  unfold EmailAddress.
  destruct (FindString_spec rMailAddr (Arg c)) as [[N _]|(pre & post & D & M & _)];
    [congruence|].
  exists pre, post. repeat split; auto. now apply rMailAddr_has_at.
Qed.

Lemma accepted_has_address_witness :
  In "@"%char (EmailAddress (lit "RCPT TO:<@hop.example.org:user@example.com>" ++ CRLF)).
Proof.
  destruct (accepted_has_address
              (lit "RCPT TO:<@hop.example.org:user@example.com>" ++ CRLF))
    as (pre & post & _ & _ & I); [right; reflexivity|exact I].
Defined.

(** * Further properties of the conversation state machine *)

Lemma flags_kept_refl v : flags_kept v v.
Proof. repeat split; auto. Qed.

Lemma flags_kept_trans v1 v2 v3 :
  flags_kept v1 v2 -> flags_kept v2 v3 -> flags_kept v1 v3.
Proof. unfold flags_kept. tauto. Qed.

Lemma Valid_keeps_RcptFirst s c :
  RcptFirst (Validity s) = true ->
  RcptFirst (Validity (snd (Valid s c))) = true.
Proof. intros H. unfold Valid. split_tests; simpl; auto. Qed.

Lemma Valid_flags_kept s c :
  flags_kept (Validity s) (Validity (snd (Valid s c))).
Proof.
  repeat split.
  - apply Valid_keeps_HeloFirst.
  - apply Valid_keeps_MailFirst.
  - apply Valid_keeps_RcptFirst.
Qed.

(** What [Valid] returns: an error and the session as it was, or no
    error. *)
Lemma Valid_shape s c :
  (exists e, Valid s c = ((false, Some e), s) /\ In e Valid_errors) \/
  (exists s', Valid s c = ((true, None), s')).
Proof.
  unfold Valid, failed, ValidLine, ValidHello, ValidMail, ValidRcpt,
    ValidData, ValidQuit.
  repeat match goal with
  | |- context [if ?b then _ else _] => destruct b
  end; cbn [snd];
  first [ right; eexists; reflexivity
        | left; eexists; split; [reflexivity|simpl; tauto] ].
Qed.

(** X10: a command that [Valid] refuses changes nothing: the session
    comes back as it was, flags included, with [false] and one of five
    errors, never with the no-such-recipient error; a command that it
    accepts comes back with [true] and no error.  So the test
    [!valid && err != nil] of [Serve] is the test [!valid]. *)
Theorem Valid_refusal_changes_nothing (s : Session) (c : command) :
  (forall v e s', Valid s c = ((v, Some e), s') ->
     v = false /\ s' = s /\ In e Valid_errors /\ e <> emailNotExistErr) /\
  (forall v s', Valid s c = ((v, None), s') -> v = true).
Proof.
  destruct (Valid_shape s c) as [(e & E & I)|(s' & E)]; rewrite E; split.
  - intros v e' s' [= <- <- <-]. repeat split; auto.
    intros ->. simpl in I. repeat destruct I as [I|I]; try discriminate; auto.
  - intros v s' [=].
  - intros v e s'' [=].
  - now intros v s'' [= <- _].
Qed.

(** X11: no flag is ever cleared: not by [Valid], whatever the command
    (RSET and a second EHLO included), not by a round of the loop, and
    not by a whole run of [Serve]. *)
Theorem flags_never_cleared :
  (forall s c, flags_kept (Validity s) (Validity (snd (Valid s c)))) /\
  (forall env s envl,
     flags_kept (Validity s) (Validity (round_session (iteration env s envl)))) /\
  (forall fuel env s s' envl,
     Serve fuel env s = Some (s', envl) ->
     flags_kept (Validity s) (Validity s')).
Proof.
  assert (Pio : forall s0 s s', flags_kept (Validity s0) (Validity s) ->
                  io_step s s' -> flags_kept (Validity s0) (Validity s')).
  { intros s0 s s' H (E & _). now rewrite E. }
  assert (PV : forall s0 s c, flags_kept (Validity s0) (Validity s) ->
                 flags_kept (Validity s0) (Validity (snd (Valid s c)))).
  { intros s0 s c H. eapply flags_kept_trans; [exact H|apply Valid_flags_kept]. }
  split; [apply Valid_flags_kept|]. split.
  - intros env s envl.
    apply (iteration_preserves (fun x => flags_kept (Validity s) (Validity x))
             (Pio s) (PV s)).
    apply flags_kept_refl.
  - intros fuel env s s' envl. unfold Serve.
    destruct (serve_body fuel env s) as [[s1 e1]|] eqn:B; [|discriminate].
    intros [= <- <-].
    apply (serve_body_preserves (fun x => flags_kept (Validity s) (Validity x))
             (Pio s) (PV s) env fuel s s1 e1 B).
    apply flags_kept_refl.
Qed.

(** X12: the sequencing errors come before the errors of the argument.
    A terminated RCPT TO: line after a greeting and before a sender gets
    the bad-sequence error; a terminated DATA line gets the
    greeting-required error before a greeting, and the bad-sequence
    error while the sender or the recipient is missing: each whatever
    the argument is, and with the session unchanged. *)
Theorem sequencing_errors_first (s : Session) (c : command) :
  HasSuffix c CRLF = true ->
  (Verb c = lit "RCPT TO:" -> HeloFirst (Validity s) = true ->
   MailFirst (Validity s) = false ->
   Valid s c = ((false, Some badSeqErr), s)) /\
  (Verb c = lit "DATA" -> HeloFirst (Validity s) = false ->
   Valid s c = ((false, Some ehloFirstErr), s)) /\
  (Verb c = lit "DATA" -> HeloFirst (Validity s) = true ->
   MailFirst (Validity s) = false \/ RcptFirst (Validity s) = false ->
   Valid s c = ((false, Some badSeqErr), s)).
Proof.
  intros T. unfold Valid. rewrite (ValidLine_terminated c T).
  repeat split.
  - intros V H M. rewrite V, H, M. reflexivity.
  - intros V H. rewrite V, H. reflexivity.
  - intros V H [M|R]; rewrite V, H; eval_verbs.
    + rewrite M. reflexivity.
    + rewrite R. now destruct (MailFirst (Validity s)).
Qed.

Lemma sequencing_errors_first_witness :
  Valid (mkSession (mkValidity true false false) 1 2 1 [] [] 0 0)
        (lit "RCPT TO:not an address" ++ CRLF)
  = ((false, Some badSeqErr),
     mkSession (mkValidity true false false) 1 2 1 [] [] 0 0).
Proof.
  destruct (sequencing_errors_first
              (mkSession (mkValidity true false false) 1 2 1 [] [] 0 0)
              (lit "RCPT TO:not an address" ++ CRLF) eq_refl) as (H & _).
  apply H; reflexivity.
Defined.

(** * Further properties of the rounds of the loop *)

(** What [Valid] answers depends on the flags only. *)
Lemma Valid_by_flags s1 s2 c :
  Validity s1 = Validity s2 ->
  fst (Valid s1 c) = fst (Valid s2 c) /\
  Validity (snd (Valid s1 c)) = Validity (snd (Valid s2 c)).
Proof.
  intros E. unfold Valid, SetHeloFirst, SetMailFirst, SetRcptFirst,
    with_Validity. rewrite E. split_tests; split; simpl; auto.
Qed.

Lemma Valid_after_read s c :
  Valid (after_read s) c =
  (fst (Valid s c), with_Validity (after_read s) (Validity (snd (Valid s c)))).
Proof.
  destruct (Valid_by_flags (after_read s) s c eq_refl) as [F V].
  rewrite <- F, <- V, <- Valid_frame. now destruct (Valid (after_read s) c).
Qed.

(** The round of a line that was read, with no shutdown signalled, when
    [Valid] refuses the line. *)
Lemma iteration_refused env s envl line e :
  ReadString env (Reads s) = (line, false) ->
  Signal env (Polls s) = false ->
  fst (Valid s line) = (false, Some e) ->
  iteration env s envl =
  (if FlushFails env (Flushes s) then Return else Continue,
   snd (Transmit env (after_read s) (Error e)), envl).
Proof.
  intros R G V. rewrite (iteration_read_ok env s envl line R G).
  rewrite Valid_after_read, V.
  destruct (Valid_shape s line) as [(e' & E & _)|(s' & E)];
    rewrite E in *; [|discriminate].
  cbn [snd Validity with_Validity]. unfold TransmitErr, Transmit.
  cbn [Flushes after_read with_Validity].
  replace (with_Validity (after_read s) (Validity s)) with (after_read s)
    by reflexivity.
  reflexivity.
Qed.

(** The round of a line that was read, with no shutdown signalled, when
    [Valid] accepts the line. *)
Lemma iteration_accepted env s envl line :
  ReadString env (Reads s) = (line, false) ->
  Signal env (Polls s) = false ->
  fst (Valid s line) = (true, None) ->
  iteration env s envl =
  dispatch env (with_Validity (after_read s) (Validity (snd (Valid s line))))
           envl line.
Proof.
  intros R G V. rewrite (iteration_read_ok env s envl line R G).
  now rewrite Valid_after_read, V.
Qed.

(** X13: the round of a refused command.  When a line was read, no
    shutdown is signalled and [Valid] refuses the line with an error,
    the text of that error is the one reply of the round, neither the
    flags nor the envelope change, and the loop goes on; if the reply
    cannot be flushed, [Serve] returns instead. *)
Theorem refused_command_round env s envl line e :
  ReadString env (Reads s) = (line, false) ->
  Signal env (Polls s) = false ->
  fst (Valid s line) = (false, Some e) ->
  let r := iteration env s envl in
  round_envelope r = envl /\
  Validity (round_session r) = Validity s /\
  Flushes (round_session r) = S (Flushes s) /\
  (FlushFails env (Flushes s) = false ->
   round_flow r = Continue /\
   Sent (round_session r) = Sent s ++ [Error e ++ CRLF]) /\
  (FlushFails env (Flushes s) = true ->
   round_flow r = Return /\ Sent (round_session r) = Sent s).
Proof.
  intros R G V r. subst r. rewrite (iteration_refused env s envl line e R G V).
  unfold round_envelope, round_session, round_flow, Transmit.
  cbn [fst snd Validity Flushes Sent after_read].
  split; [reflexivity|]. split; [reflexivity|]. split; [reflexivity|].
  split; intros F; rewrite F; split; reflexivity.
Qed.

Lemma refused_command_round_witness :
  let env := script [lit "MAIL FROM:<no address>" ++ CRLF] in
  let s := mkSession (mkValidity true false false) 0 1 0 [] [] 0 0 in
  Sent (round_session (iteration env s NewEnvelope)) =
    [Error invalidCommandArgErr ++ CRLF].
Proof.
  cbv zeta.
  destruct (refused_command_round
              (script [lit "MAIL FROM:<no address>" ++ CRLF])
              (mkSession (mkValidity true false false) 0 1 0 [] [] 0 0)
              NewEnvelope (lit "MAIL FROM:<no address>" ++ CRLF)
              invalidCommandArgErr eq_refl eq_refl eq_refl)
    as (_ & _ & _ & H & _).
  exact (proj2 (H eq_refl)).
Defined.

(** X14: the round of an unknown command.  A terminated line whose verb
    is none of the twelve that [Serve] knows (the empty verb of a short
    line included) passes [Valid], gets the reply 503 Invalid command,
    changes neither flags nor envelope, and the loop goes on. *)
Theorem unknown_command_round env s envl line :
  ReadString env (Reads s) = (line, false) ->
  Signal env (Polls s) = false ->
  FlushFails env (Flushes s) = false ->
  HasSuffix line CRLF = true ->
  ~ In (Verb line) known_verbs ->
  let r := iteration env s envl in
  round_flow r = Continue /\
  Sent (round_session r) = Sent s ++ [REPLY_503 ++ CRLF] /\
  Validity (round_session r) = Validity s /\
  round_envelope r = envl.
Proof.
  intros R G F T N r. subst r.
  assert (V : Valid s line = ((true, None), s)).
  { apply Valid_other_verb; [assumption|].
    intros I. apply N. unfold known_verbs. simpl in *. tauto. }
  rewrite (iteration_accepted env s envl line R G) by now rewrite V.
  rewrite V. cbn [snd]. unfold dispatch. cbv zeta.
  repeat match goal with
  | |- context [str_eqb (Verb line) ?v] =>
      rewrite (str_eqb_neq (Verb line) v)
        by (intros E; apply N; rewrite E; unfold known_verbs; simpl; tauto)
  end.
  unfold reply, Transmit. cbn [Flushes with_Validity after_read].
  rewrite F. repeat split.
Qed.

Lemma unknown_command_round_witness :
  let env := script [lit "EHLO host:25" ++ CRLF] in
  Sent (round_session (iteration env New NewEnvelope)) = [REPLY_503 ++ CRLF].
Proof.
  cbv zeta.
  destruct (unknown_command_round (script [lit "EHLO host:25" ++ CRLF]) New
              NewEnvelope (lit "EHLO host:25" ++ CRLF)
              eq_refl eq_refl eq_refl eq_refl) as (_ & H & _).
  - vm_compute. intros H. repeat destruct H as [H|H]; try discriminate; auto.
  - exact H.
Defined.

Lemma Valid_QUIT s c :
  HasSuffix c CRLF = true -> Verb c = lit "QUIT" ->
  Valid s c = if str_eqb (Arg c) [] then ((true, None), s)
              else ((false, Some invalidCommandArgErr), s).
Proof.
  intros T V. unfold Valid, ValidQuit.
  rewrite (ValidLine_terminated c T), V. eval_verbs.
  now destruct (str_eqb (Arg c) []).
Qed.

(** X15: the round of QUIT.  A terminated QUIT line is legal in every
    state.  Without an argument it ends the loop, whether or not the
    reply 221 can be flushed; with an argument it gets the
    invalid-arguments error and the loop goes on.  Flags and envelope
    stay as they were. *)
Theorem QUIT_round env s envl line :
  ReadString env (Reads s) = (line, false) ->
  Signal env (Polls s) = false ->
  HasSuffix line CRLF = true -> Verb line = lit "QUIT" ->
  let r := iteration env s envl in
  Validity (round_session r) = Validity s /\
  round_envelope r = envl /\
  (Arg line = [] ->
   round_flow r = Return /\
   Sent (round_session r) =
     Sent s ++ (if FlushFails env (Flushes s) then []
                else [REPLY_221 ++ CRLF])) /\
  (Arg line <> [] ->
   round_flow r = (if FlushFails env (Flushes s) then Return else Continue) /\
   Sent (round_session r) =
     Sent s ++ (if FlushFails env (Flushes s) then []
                else [Error invalidCommandArgErr ++ CRLF])).
Proof.
  intros R G T V r. subst r.
  pose proof (Valid_QUIT s line T V) as Q.
  destruct (str_eqb (Arg line) []) eqn:A.
  - apply str_eqb_eq in A.
    rewrite (iteration_accepted env s envl line R G) by now rewrite Q.
    rewrite Q. cbn [snd]. unfold dispatch. cbv zeta. rewrite V. eval_verbs.
    unfold round_flow, round_session, round_envelope, Transmit.
    cbn [fst snd Validity Flushes Sent after_read with_Validity].
    split; [reflexivity|]. split; [reflexivity|]. split; [|tauto].
    intros _. split; [reflexivity|].
    destruct (FlushFails env (Flushes s)); [now rewrite app_nil_r|reflexivity].
  - assert (N : Arg line <> []) by (intros H; rewrite H in A; discriminate).
    rewrite (iteration_refused env s envl line invalidCommandArgErr R G)
      by now rewrite Q.
    unfold round_flow, round_session, round_envelope, Transmit.
    cbn [fst snd Validity Flushes Sent after_read].
    split; [reflexivity|]. split; [reflexivity|]. split; [tauto|].
    intros _. split; [reflexivity|].
    destruct (FlushFails env (Flushes s)); [now rewrite app_nil_r|reflexivity].
Qed.

Lemma QUIT_round_witness :
  let env := broken_writer 0 [lit "quit" ++ CRLF] in
  round_flow (iteration env New NewEnvelope) = Return /\
  Sent (round_session (iteration env New NewEnvelope)) = [].
Proof.
  cbv zeta.
  destruct (QUIT_round (broken_writer 0 [lit "quit" ++ CRLF]) New NewEnvelope
              (lit "quit" ++ CRLF) eq_refl eq_refl eq_refl eq_refl)
    as (_ & _ & H & _).
  exact (H eq_refl).
Defined.

(** X16: the round that finds the shutdown signal.  [Serve] returns,
    whatever was read: the line is not looked at, so that even a valid
    MAIL FROM: or RCPT TO: line changes neither flags nor envelope and
    gets no reply of its own.  After a good read the one reply is 453,
    if it can be flushed. *)
Theorem shutdown_round env s envl :
  Signal env (Polls s) = true ->
  let r := iteration env s envl in
  round_flow r = Return /\
  Validity (round_session r) = Validity s /\
  round_envelope r = envl /\
  Reads (round_session r) = S (Reads s) /\
  (snd (ReadString env (Reads s)) = false ->
   Sent (round_session r) =
     Sent s ++ (if FlushFails env (Flushes s) then []
                else [REPLY_453 ++ CRLF])).
Proof.
  intros G r. subst r. unfold iteration, read_line.
  destruct (ReadString env (Reads s)) as [line rerr].
  unfold Transmit, CheckChanClosed.
  destruct rerr;
    cbn [fst snd Validity Flushes Sent Reads Polls Logged ConnClosed WgDone].
  - destruct (FlushFails env (Flushes s));
      cbn [fst snd Validity Flushes Sent Reads Polls Logged ConnClosed WgDone];
      rewrite ?G; unfold Transmit;
      repeat split; discriminate.
  - rewrite G. unfold Transmit, round_flow, round_session, round_envelope.
    cbn [fst snd Validity Flushes Sent Reads Polls Logged ConnClosed WgDone].
    repeat split.
    destruct (FlushFails env (Flushes s)); [now rewrite app_nil_r|reflexivity].
Qed.

Lemma shutdown_round_witness :
  let env := mkEnv (ReadString (script [lit "MAIL FROM:<a@b.cd>" ++ CRLF]))
                   (fun _ => false) (fun _ => true) in
  let s := mkSession (mkValidity true false false) 0 1 0 [] [] 0 0 in
  round_flow (iteration env s NewEnvelope) = Return /\
  Validity (round_session (iteration env s NewEnvelope)) =
    mkValidity true false false.
Proof.
  cbv zeta.
  destruct (shutdown_round
              (mkEnv (ReadString (script [lit "MAIL FROM:<a@b.cd>" ++ CRLF]))
                     (fun _ => false) (fun _ => true))
              (mkSession (mkValidity true false false) 0 1 0 [] [] 0 0)
              NewEnvelope eq_refl) as (F & V & _).
  split; [exact F|exact V].
Defined.

Lemma ValidMail_address c :
  ValidMail c = (true, None) -> matches rMailAddr (EmailAddress c).
Proof.
  intros H.
  assert (T : MatchString rMailAddr (Arg c) = true).
  { apply bracketed_address_found, MatchString_rMailArg. unfold ValidMail in H.
    destruct (str_eqb (Arg c) []); [discriminate|].
    now destruct (MatchString rMailArg (Arg c)). }
  unfold EmailAddress.
  destruct (FindString_spec rMailAddr (Arg c)) as [[N _]|(_ & _ & _ & M & _)];
    [congruence|exact M].
Qed.

Lemma ValidRcpt_address c :
  ValidRcpt c = (true, None) -> matches rMailAddr (EmailAddress c).
Proof.
  intros H.
  assert (T : MatchString rMailAddr (Arg c) = true).
  { apply forward_path_found, MatchString_rRcptArg. unfold ValidRcpt in H.
    destruct (str_eqb (Arg c) [] || negb (MatchString rArgSyntax (Arg c)));
      [discriminate|].
    now destruct (MatchString rRcptArg (Arg c)). }
  unfold EmailAddress.
  destruct (FindString_spec rMailAddr (Arg c)) as [[N _]|(_ & _ & _ & M & _)];
    [congruence|exact M].
Qed.

(** X17: how the envelope is built.  After a greeting, the round of a
    MAIL FROM: line that [ValidMail] accepts sets [MailFirst], puts the
    extracted address in place of the originator and leaves the
    recipients alone, also when a sender was declared before; the round
    of a RCPT TO: line that [ValidRcpt] accepts, after a sender, sets
    [RcptFirst] and appends the extracted address to the recipients,
    behind those already there.  The address stored is an address of
    the pattern both times; the replies are 250 and the 250 of a
    recipient. *)
Theorem envelope_building env s envl line :
  ReadString env (Reads s) = (line, false) ->
  Signal env (Polls s) = false ->
  HasSuffix line CRLF = true ->
  HeloFirst (Validity s) = true ->
  let r := iteration env s envl in
  (Verb line = lit "MAIL FROM:" -> ValidMail line = (true, None) ->
   round_envelope r = mkEnvelope (EmailAddress line) (RecipientAddress envl)
                                 (Extension envl) /\
   matches rMailAddr (EmailAddress line) /\
   Validity (round_session r) = mkValidity true true (RcptFirst (Validity s)) /\
   round_flow r = (if FlushFails env (Flushes s) then Return else Continue) /\
   Sent (round_session r) =
     Sent s ++ (if FlushFails env (Flushes s) then []
                else [REPLY_250 ++ CRLF])) /\
  (Verb line = lit "RCPT TO:" -> MailFirst (Validity s) = true ->
   ValidRcpt line = (true, None) ->
   round_envelope r = mkEnvelope (OriginatorAddress envl)
                                 (RecipientAddress envl ++ [EmailAddress line])
                                 (Extension envl) /\
   matches rMailAddr (EmailAddress line) /\
   Validity (round_session r) = mkValidity true true true /\
   round_flow r = (if FlushFails env (Flushes s) then Return else Continue) /\
   Sent (round_session r) =
     Sent s ++ (if FlushFails env (Flushes s) then []
                else [REPLY_250_RCPT ++ CRLF])).
Proof.
  intros R G T H r. subst r. split.
  - intros V M.
    assert (Q : Valid s line = ((true, None), SetMailFirst s true)).
    { unfold Valid. rewrite (ValidLine_terminated line T), V, H, M. reflexivity. }
    rewrite (iteration_accepted env s envl line R G) by now rewrite Q.
    rewrite Q. cbn [snd]. unfold dispatch. cbv zeta. rewrite V. eval_verbs.
    unfold reply, Transmit, round_flow, round_session, round_envelope.
    cbn [fst snd Validity Flushes Sent after_read with_Validity SetMailFirst].
    rewrite H.
    split; [reflexivity|]. split; [now apply ValidMail_address|].
    split; [reflexivity|].
    destruct (FlushFails env (Flushes s)); split; try reflexivity.
    now rewrite app_nil_r.
  - intros V M A.
    assert (Q : Valid s line = ((true, None), SetRcptFirst s true)).
    { unfold Valid. rewrite (ValidLine_terminated line T), V, H, M, A.
      reflexivity. }
    rewrite (iteration_accepted env s envl line R G) by now rewrite Q.
    rewrite Q. cbn [snd]. unfold dispatch. cbv zeta. rewrite V. eval_verbs.
    unfold reply, Transmit, round_flow, round_session, round_envelope.
    cbn [fst snd Validity Flushes Sent after_read with_Validity SetRcptFirst].
    rewrite H, M.
    split; [reflexivity|]. split; [now apply ValidRcpt_address|].
    split; [reflexivity|].
    destruct (FlushFails env (Flushes s)); split; try reflexivity.
    now rewrite app_nil_r.
Qed.

(** The theorem at a second recipient, the same as the first. *)
Lemma envelope_building_witness :
  let env := script [lit "RCPT TO:<c@d.com>" ++ CRLF] in
  let s := mkSession (mkValidity true true true) 0 1 0 [] [] 0 0 in
  let envl := mkEnvelope (lit "a@b.com") [lit "c@d.com"] [] in
  RecipientAddress (round_envelope (iteration env s envl)) =
    [lit "c@d.com"; lit "c@d.com"].
Proof.
  cbv zeta.
  destruct (envelope_building (script [lit "RCPT TO:<c@d.com>" ++ CRLF])
              (mkSession (mkValidity true true true) 0 1 0 [] [] 0 0)
              (mkEnvelope (lit "a@b.com") [lit "c@d.com"] [])
              (lit "RCPT TO:<c@d.com>" ++ CRLF)
              eq_refl eq_refl eq_refl eq_refl) as [_ H].
  destruct (H eq_refl eq_refl eq_refl) as (E & _).
  rewrite E. reflexivity.
Defined.

(** X18: the round of a greeting.  A terminated HELO or EHLO line that
    [ValidHello] accepts sets [HeloFirst] and gets the plain reply 250,
    in every state: a greeting in the middle of a transaction leaves
    [MailFirst], [RcptFirst] and the envelope as they are. *)
Theorem greeting_round env s envl line :
  ReadString env (Reads s) = (line, false) ->
  Signal env (Polls s) = false ->
  HasSuffix line CRLF = true ->
  Verb line = lit "HELO" \/ Verb line = lit "EHLO" ->
  ValidHello line = (true, None) ->
  let r := iteration env s envl in
  Validity (round_session r) =
    mkValidity true (MailFirst (Validity s)) (RcptFirst (Validity s)) /\
  round_envelope r = envl /\
  round_flow r = (if FlushFails env (Flushes s) then Return else Continue) /\
  Sent (round_session r) =
    Sent s ++ (if FlushFails env (Flushes s) then []
               else [REPLY_250 ++ CRLF]).
Proof.
  intros R G T V A r. subst r.
  assert (Q : Valid s line = ((true, None), SetHeloFirst s true)).
  { unfold Valid. rewrite (ValidLine_terminated line T), A.
    destruct V as [-> | ->]; reflexivity. }
  rewrite (iteration_accepted env s envl line R G) by now rewrite Q.
  rewrite Q. cbn [snd]. unfold dispatch. cbv zeta.
  destruct V as [-> | ->]; eval_verbs;
    unfold reply, Transmit, round_flow, round_session, round_envelope;
    cbn [fst snd Validity Flushes Sent after_read with_Validity SetHeloFirst];
    (split; [reflexivity|]); (split; [reflexivity|]);
    destruct (FlushFails env (Flushes s)); split; try reflexivity;
    now rewrite app_nil_r.
Qed.

Lemma greeting_round_witness :
  let env := script [lit "ehlo again.example.org" ++ CRLF] in
  let s := mkSession (mkValidity true true true) 0 1 0 [] [] 0 0 in
  Validity (round_session (iteration env s NewEnvelope)) =
    mkValidity true true true.
Proof.
  cbv zeta.
  destruct (greeting_round (script [lit "ehlo again.example.org" ++ CRLF])
              (mkSession (mkValidity true true true) 0 1 0 [] [] 0 0)
              NewEnvelope (lit "ehlo again.example.org" ++ CRLF)
              eq_refl eq_refl eq_refl (or_intror eq_refl) eq_refl) as (E & _).
  exact E.
Defined.

Lemma Valid_DATA s c :
  HasSuffix c CRLF = true -> Verb c = lit "DATA" ->
  Valid s c =
  if negb (HeloFirst (Validity s)) then ((false, Some ehloFirstErr), s)
  else if negb (MailFirst (Validity s)) || negb (RcptFirst (Validity s))
       then ((false, Some badSeqErr), s)
       else if str_eqb (Arg c) [] then ((true, None), s)
            else ((false, Some syntaxErr), s).
Proof.
  intros T V. unfold Valid, ValidData.
  rewrite (ValidLine_terminated c T), V. eval_verbs.
  destruct (HeloFirst (Validity s)), (MailFirst (Validity s)),
    (RcptFirst (Validity s)), (str_eqb (Arg c) []); reflexivity.
Qed.

(** X19: the round of DATA.  A terminated DATA line is accepted exactly
    when the three flags are set and it has no argument; with the flags
    set and an argument it gets the syntax error.  Accepted, it gets the
    reply 354 and changes neither flags nor envelope, and the loop goes
    on with the next line, read as a command like any other. *)
Theorem DATA_round env s envl line :
  ReadString env (Reads s) = (line, false) ->
  Signal env (Polls s) = false ->
  HasSuffix line CRLF = true -> Verb line = lit "DATA" ->
  let ready := HeloFirst (Validity s) = true /\ MailFirst (Validity s) = true /\
               RcptFirst (Validity s) = true in
  (fst (Valid s line) = (true, None) <-> ready /\ Arg line = []) /\
  (ready -> Arg line <> [] -> fst (Valid s line) = (false, Some syntaxErr)) /\
  (fst (Valid s line) = (true, None) ->
   let r := iteration env s envl in
   Validity (round_session r) = Validity s /\
   round_envelope r = envl /\
   round_flow r = (if FlushFails env (Flushes s) then Return else Continue) /\
   Sent (round_session r) =
     Sent s ++ (if FlushFails env (Flushes s) then []
                else [REPLY_354 ++ CRLF])).
Proof.
  intros R G T V ready. pose proof (Valid_DATA s line T V) as Q.
  assert (A : str_eqb (Arg line) [] = true <-> Arg line = [])
    by apply str_eqb_eq.
  split; [|split].
  - rewrite Q, <- A. unfold ready.
    destruct (HeloFirst (Validity s)), (MailFirst (Validity s)),
      (RcptFirst (Validity s)), (str_eqb (Arg line) []); simpl;
      intuition discriminate.
  - intros (H & M & Rc) N. rewrite Q, H, M, Rc. simpl.
    destruct (str_eqb (Arg line) []) eqn:E; [|reflexivity].
    apply str_eqb_eq in E. contradiction.
  - intros Ok r. subst r.
    assert (S' : snd (Valid s line) = s).
    { rewrite Q. now repeat match goal with
      | |- context [if ?b then _ else _] => destruct b end. }
    rewrite (iteration_accepted env s envl line R G Ok), S'.
    unfold dispatch. cbv zeta. rewrite V. eval_verbs.
    unfold reply, Transmit, round_flow, round_session, round_envelope.
    cbn [fst snd Validity Flushes Sent after_read with_Validity].
    split; [reflexivity|]. split; [reflexivity|].
    destruct (FlushFails env (Flushes s)); split; try reflexivity.
    now rewrite app_nil_r.
Qed.

Lemma DATA_round_witness :
  let env := script [lit "DATA" ++ CRLF] in
  let s := mkSession (mkValidity true true true) 0 1 0 [] [] 0 0 in
  Sent (round_session (iteration env s NewEnvelope)) = [REPLY_354 ++ CRLF] /\
  Validity (round_session (iteration env s NewEnvelope)) =
    mkValidity true true true.
Proof.
  cbv zeta.
  destruct (DATA_round (script [lit "DATA" ++ CRLF])
              (mkSession (mkValidity true true true) 0 1 0 [] [] 0 0)
              NewEnvelope (lit "DATA" ++ CRLF)
              eq_refl eq_refl eq_refl eq_refl) as (_ & _ & H).
  destruct (H eq_refl) as (V & _ & _ & S1).
  split; [exact S1|exact V].
Defined.

(** * Further properties of the serve loop *)

Lemma Valid_transport s s3 c :
  Validity s3 = Validity s ->
  Valid s3 c = (fst (Valid s c), with_Validity s3 (Validity (snd (Valid s c)))).
Proof.
  intros E. destruct (Valid_by_flags s3 s c E) as [F V].
  rewrite <- F, <- V, <- Valid_frame. now destruct (Valid s3 c).
Qed.

(** A round, case by case: the 453 for a failed read cannot be flushed;
    the shutdown signal is found; [Valid] refuses the line; [Valid]
    accepts it and the verb is dispatched. *)
Lemma iteration_cases env s envl :
  iteration env s envl =
  let line := fst (ReadString env (Reads s)) in
  let rerr := snd (ReadString env (Reads s)) in
  if rerr && FlushFails env (Flushes s) then
    (Return,
     mkSession (Validity s) (S (Reads s)) (S (Flushes s)) (Polls s) (Sent s)
               (Logged s) (ConnClosed s) (WgDone s),
     envl)
  else if Signal env (Polls s) then
    (Return, snd (Transmit env (before_Valid env s) REPLY_453), envl)
  else
    match fst (Valid s line) with
    | (false, Some e) =>
        (if FlushFails env (Flushes (before_Valid env s))
         then Return else Continue,
         snd (Transmit env (before_Valid env s) (Error e)), envl)
    | _ =>
        dispatch env
          (with_Validity (before_Valid env s) (Validity (snd (Valid s line))))
          envl line
    end.
Proof.
  unfold iteration, read_line, before_Valid. cbv zeta.
  destruct (ReadString env (Reads s)) as [line rerr]. cbn [fst snd].
  assert (K : forall s3, Validity s3 = Validity s ->
    (let '(valid, err, s0) := Valid s3 line in
     match valid with
     | true => dispatch env s0 envl line
     | false =>
         match err with
         | Some err0 =>
             let (e, s1) := TransmitErr env s0 err0 in
             (if e then Return else Continue, s1, envl)
         | None => dispatch env s0 envl line
         end
     end) =
    match fst (Valid s line) with
    | (false, Some e) =>
        (if FlushFails env (Flushes s3) then Return else Continue,
         snd (Transmit env s3 (Error e)), envl)
    | _ => dispatch env (with_Validity s3 (Validity (snd (Valid s line))))
                    envl line
    end).
  { intros s3 E. rewrite (Valid_transport s s3 line E).
    destruct (Valid_shape s line) as [(e & Q & _)|(s' & Q)]; rewrite Q;
      cbn [fst snd]; [|reflexivity].
    unfold TransmitErr, Transmit. cbn [Flushes with_Validity].
    rewrite <- E. now destruct s3. }
  destruct rerr; cbn [andb].
  - unfold Transmit at 1.
    cbn [Flushes Sent Validity Reads Polls Logged ConnClosed WgDone].
    destruct (FlushFails env (Flushes s)); [reflexivity|].
    unfold CheckChanClosed.
    cbn [Flushes Sent Validity Reads Polls Logged ConnClosed WgDone].
    destruct (Signal env (Polls s)); [reflexivity|].
    now rewrite K.
  - unfold CheckChanClosed.
    cbn [Flushes Sent Validity Reads Polls Logged ConnClosed WgDone].
    destruct (Signal env (Polls s)); [reflexivity|].
    now rewrite K.
Qed.

(** What a round sends: at most two replies, at most one after a good
    read, each of them one of [replies], behind what was sent before;
    and it reads one line. *)
Lemma iteration_wire env s envl :
  Reads (round_session (iteration env s envl)) = S (Reads s) /\
  exists more,
    Sent (round_session (iteration env s envl)) = Sent s ++ more /\
    Forall on_wire more /\ length more <= 2 /\
    (snd (ReadString env (Reads s)) = false -> length more <= 1).
Proof.
  rewrite iteration_cases. cbv zeta. unfold before_Valid.
  destruct (ReadString env (Reads s)) as [line rerr]. cbn [fst snd].
  destruct (Valid_shape s line) as [(e & Q & I)|(s' & Q)]; rewrite Q;
    cbn [fst snd];
    unfold dispatch, reply, Transmit, Println, round_session; cbv zeta;
    try (unfold Valid_errors in I; simpl in I;
         repeat destruct I as [I|I]; try contradiction; subst e);
    repeat match goal with
    | |- context [if ?b then _ else _] => destruct b
    end;
    cbn [fst snd andb Validity Flushes Sent Reads Polls Logged ConnClosed
         WgDone with_Validity];
    (split; [reflexivity|]); sent_more;
    (split; [repeat (constructor; [on_wire_tac|]); constructor|]);
    (split; [simpl; lia|]); intros; simpl; try lia; discriminate.
Qed.

Lemma loop_wire env fuel : forall s envl s' envl',
  loop fuel env s envl = Some (s', envl') ->
  exists more, Sent s' = Sent s ++ more /\ Forall on_wire more.
Proof.
  induction fuel as [|fuel IH]; intros s envl s' envl'; simpl; [discriminate|].
  destruct (iteration_wire env s envl) as (_ & more & E & F & _).
  destruct (iteration env s envl) as [[[|] s1] envl1];
    unfold round_session in E; simpl in E.
  - intros L. destruct (IH _ _ _ _ L) as (more' & E' & F').
    exists (more ++ more'). rewrite E', E, app_assoc. split; [reflexivity|].
    apply Forall_app. auto.
  - intros [= <- <-]. eauto.
Qed.

Lemma not_on_wire r :
  ~ In r replies -> forall l, Forall on_wire l -> ~ In (r ++ CRLF) l.
Proof.
  intros N l F I. rewrite Forall_forall in F.
  destruct (F _ I) as (r' & I' & E). apply app_inv_tail in E. now subst r'.
Qed.

(** X20: what goes to the peer.  A round reads one line and sends at
    most two replies, at most one after a good read, behind what was
    sent before.  A run of [Serve] on a fresh session sends nothing or
    starts with the greeting 220; every message it sends is one of
    twelve replies and ends in the terminator; it never sends the reply
    421 nor the no-such-recipient error, which the source declares. *)
Theorem wire_discipline :
  (forall env s envl,
     Reads (round_session (iteration env s envl)) = S (Reads s) /\
     exists more,
       Sent (round_session (iteration env s envl)) = Sent s ++ more /\
       Forall on_wire more /\ length more <= 2 /\
       (snd (ReadString env (Reads s)) = false -> length more <= 1)) /\
  (forall fuel env s envl,
     Serve fuel env New = Some (s, envl) ->
     (Sent s = [] \/ exists more, Sent s = (REPLY_220 ++ CRLF) :: more) /\
     Forall on_wire (Sent s) /\
     Forall (fun m => HasSuffix m CRLF = true) (Sent s) /\
     ~ In (REPLY_421 ++ CRLF) (Sent s) /\
     ~ In (Error emailNotExistErr ++ CRLF) (Sent s)).
Proof.
  split; [apply iteration_wire|].
  intros fuel env s envl. unfold Serve, serve_body, Transmit.
  cbn [Flushes Sent New Validity Reads Polls Logged ConnClosed WgDone].
  assert (W : forall l, Forall on_wire l ->
    Forall (fun m => HasSuffix m CRLF = true) l /\
    ~ In (REPLY_421 ++ CRLF) l /\ ~ In (Error emailNotExistErr ++ CRLF) l).
  { intros l F. split; [|split].
    - eapply Forall_impl; [|exact F]. intros m (r & _ & ->).
      apply HasSuffix_spec. eauto.
    - apply not_on_wire; [|exact F]. unfold replies. simpl.
      intros H. repeat destruct H as [H|H]; try discriminate; auto.
    - apply not_on_wire; [|exact F]. unfold replies. simpl.
      intros H. repeat destruct H as [H|H]; try discriminate; auto. }
  destruct (FlushFails env 0).
  - intros [= <- <-]. cbn [Sent Close].
    split; [now left|]. split; [constructor|]. apply W. constructor.
  - match goal with |- context [loop fuel env ?s0 ?e0] =>
      destruct (loop fuel env s0 e0) as [[s1 e1]|] eqn:L; [|discriminate];
      apply loop_wire in L; destruct L as (more & E & F)
    end.
    intros [= <- <-]. cbn [Sent Close] in *. rewrite E. simpl.
    assert (F' : Forall on_wire ((REPLY_220 ++ CRLF) :: more)).
    { constructor; [on_wire_tac|exact F]. }
    split; [right; eauto|]. split; [exact F'|]. now apply W.
Qed.

Lemma dispatch_envelope env s envl c :
  round_envelope (dispatch env s envl c) = envelope_after envl c /\
  Validity (round_session (dispatch env s envl c)) = Validity s.
Proof.
  unfold dispatch, envelope_after. cbv zeta.
  destruct (str_eqb (Verb c) (lit "HELO")) eqn:E1.
  { apply str_eqb_eq in E1. rewrite E1. eval_verbs. unfold reply, Transmit.
    now destruct (FlushFails env (Flushes s)). }
  destruct (str_eqb (Verb c) (lit "EHLO")) eqn:E2.
  { apply str_eqb_eq in E2. rewrite E2. eval_verbs. unfold reply, Transmit.
    now destruct (FlushFails env (Flushes s)). }
  unfold reply, Transmit, Println.
  repeat match goal with
  | |- context [if ?b then _ else _] => destruct b
  end; split; reflexivity.
Qed.

Lemma ValidMail_shape c :
  ValidMail c = (true, None) \/ exists e, ValidMail c = (false, Some e).
Proof.
  unfold ValidMail.
  repeat match goal with
  | |- context [if ?b then _ else _] => destruct b
  end; eauto.
Qed.

Lemma ValidRcpt_shape c :
  ValidRcpt c = (true, None) \/ exists e, ValidRcpt c = (false, Some e).
Proof.
  unfold ValidRcpt.
  repeat match goal with
  | |- context [if ?b then _ else _] => destruct b
  end; eauto.
Qed.

Lemma Valid_accepts_MAIL s c :
  Verb c = lit "MAIL FROM:" -> fst (Valid s c) = (true, None) ->
  ValidMail c = (true, None) /\ HeloFirst (Validity s) = true /\
  Validity (snd (Valid s c)) = mkValidity true true (RcptFirst (Validity s)).
Proof.
  intros V. unfold Valid. rewrite V. eval_verbs.
  destruct (failed (ValidLine c)); [discriminate|].
  destruct (HeloFirst (Validity s)) eqn:H; [|discriminate]. cbn [negb].
  destruct (ValidMail_shape c) as [-> | [e ->]]; [|discriminate].
  intros _. cbn. now rewrite H.
Qed.

Lemma Valid_accepts_RCPT s c :
  Verb c = lit "RCPT TO:" -> fst (Valid s c) = (true, None) ->
  ValidRcpt c = (true, None) /\ HeloFirst (Validity s) = true /\
  MailFirst (Validity s) = true /\
  Validity (snd (Valid s c)) = mkValidity true true true.
Proof.
  intros V. unfold Valid. rewrite V. eval_verbs.
  destruct (failed (ValidLine c)); [discriminate|].
  destruct (HeloFirst (Validity s)) eqn:H; [|discriminate]. cbn [negb].
  destruct (MailFirst (Validity s)) eqn:M; [|discriminate]. cbn [negb].
  destruct (ValidRcpt_shape c) as [-> | [e ->]]; [|discriminate].
  intros _. cbn. now rewrite H, M.
Qed.

Lemma Valid_other_MailFirst s c :
  str_eqb (Verb c) (lit "MAIL FROM:") = false ->
  MailFirst (Validity (snd (Valid s c))) = MailFirst (Validity s).
Proof.
  intros N. unfold Valid. rewrite N. split_tests; reflexivity.
Qed.

Lemma Valid_other_RcptFirst s c :
  str_eqb (Verb c) (lit "RCPT TO:") = false ->
  RcptFirst (Validity (snd (Valid s c))) = RcptFirst (Validity s).
Proof.
  intros N. unfold Valid. rewrite N. split_tests; reflexivity.
Qed.

Lemma rMailAddr_not_nil a : matches rMailAddr a -> a <> [].
Proof. intros M ->. now apply rMailAddr_has_at in M. Qed.

(** Flags and envelope after the dispatch of an accepted line. *)
Lemma accepted_agrees s envl c :
  fst (Valid s c) = (true, None) ->
  envelope_agrees (Validity s) envl ->
  envelope_agrees (Validity (snd (Valid s c))) (envelope_after envl c).
Proof.
  intros Ok (AM & AR & AO & AF & AE). unfold envelope_after.
  destruct (str_eqb (Verb c) (lit "MAIL FROM:")) eqn:E1.
  - apply str_eqb_eq in E1.
    destruct (Valid_accepts_MAIL s c E1 Ok) as (M & _ & ->).
    apply ValidMail_address in M. pose proof (rMailAddr_not_nil _ M).
    repeat split; cbn; auto; try tauto.
  - destruct (str_eqb (Verb c) (lit "RCPT TO:")) eqn:E2.
    + apply str_eqb_eq in E2.
      destruct (Valid_accepts_RCPT s c E2 Ok) as (M & _ & Mf & ->).
      apply ValidRcpt_address in M.
      repeat split; cbn; auto; try tauto.
      * intros _ E. now apply app_eq_nil in E.
      * apply Forall_app. auto.
    + rewrite <- (Valid_other_MailFirst s c E1) in AM.
      rewrite <- (Valid_other_RcptFirst s c E2) in AR.
      repeat split; auto; tauto.
Qed.

Lemma iteration_agrees env s envl :
  envelope_agrees (Validity s) envl ->
  envelope_agrees (Validity (round_session (iteration env s envl)))
                  (round_envelope (iteration env s envl)).
Proof.
  intros A. rewrite iteration_cases. cbv zeta.
  destruct (snd (ReadString env (Reads s)) && FlushFails env (Flushes s));
    [exact A|].
  destruct (Signal env (Polls s)); [exact A|].
  destruct (Valid_shape s (fst (ReadString env (Reads s))))
    as [(e & Q & _)|(s' & Q)]; rewrite Q; cbn [fst snd]; [exact A|].
  match goal with |- context [dispatch env ?x envl ?c] =>
    destruct (dispatch_envelope env x envl c) as [-> ->]
  end.
  cbn [Validity with_Validity].
  replace s' with (snd (Valid s (fst (ReadString env (Reads s)))))
    by now rewrite Q.
  apply accepted_agrees; [now rewrite Q|exact A].
Qed.

Lemma loop_agrees env fuel : forall s envl s' envl',
  loop fuel env s envl = Some (s', envl') ->
  envelope_agrees (Validity s) envl -> envelope_agrees (Validity s') envl'.
Proof.
  induction fuel as [|fuel IH]; intros s envl s' envl'; simpl; [discriminate|].
  pose proof (iteration_agrees env s envl) as I.
  destruct (iteration env s envl) as [[[|] s1] envl1];
    unfold round_session, round_envelope in I; simpl in I.
  - intros L A. eapply IH; eauto.
  - intros [= <- <-] A. auto.
Qed.

(** X21: flags and envelope agree, from the fresh session on, after
    every round, and when [Serve] returns: there is an originator
    exactly when [MailFirst] is set and a recipient exactly when
    [RcptFirst] is set, every stored address is an address of the
    pattern, and the extension stays empty.  A round leaves the
    recipients that are there in place and in order, and adds at most
    one behind them. *)
Theorem envelope_agrees_with_flags :
  envelope_agrees (Validity New) NewEnvelope /\
  (forall env s envl,
     envelope_agrees (Validity s) envl ->
     envelope_agrees (Validity (round_session (iteration env s envl)))
                     (round_envelope (iteration env s envl))) /\
  (forall env s envl,
     exists more,
       RecipientAddress (round_envelope (iteration env s envl)) =
         RecipientAddress envl ++ more /\ length more <= 1) /\
  (forall fuel env s envl,
     Serve fuel env New = Some (s, envl) ->
     envelope_agrees (Validity s) envl).
Proof.
  assert (A0 : envelope_agrees (Validity New) NewEnvelope).
  { repeat split; simpl; auto; try discriminate; try tauto. }
  split; [exact A0|]. split; [apply iteration_agrees|]. split.
  - intros env s envl. rewrite iteration_cases. cbv zeta.
    assert (N : exists more, RecipientAddress envl = RecipientAddress envl ++ more
                             /\ length more <= 1).
    { exists []. rewrite app_nil_r. simpl. auto. }
    destruct (snd (ReadString env (Reads s)) && FlushFails env (Flushes s));
      [exact N|].
    destruct (Signal env (Polls s)); [exact N|].
    assert (D : forall x c, exists more,
      RecipientAddress (round_envelope (dispatch env x envl c)) =
        RecipientAddress envl ++ more /\ length more <= 1).
    { intros x c. destruct (dispatch_envelope env x envl c) as [-> _].
      unfold envelope_after.
      destruct (str_eqb (Verb c) (lit "MAIL FROM:")); [exact N|].
      destruct (str_eqb (Verb c) (lit "RCPT TO:")); [|exact N].
      eexists. split; [reflexivity|]. simpl. auto. }
    destruct (fst (Valid s (fst (ReadString env (Reads s))))) as [[|] [e|]];
      auto.
  - intros fuel env s envl. unfold Serve, serve_body, Transmit.
    cbn [Flushes Sent New Validity Reads Polls Logged ConnClosed WgDone].
    destruct (FlushFails env 0).
    + intros [= <- <-]. exact A0.
    + match goal with |- context [loop fuel env ?s0 ?e0] =>
        destruct (loop fuel env s0 e0) as [[s1 e1]|] eqn:L; [|discriminate];
        apply loop_agrees in L; [|exact A0]
      end.
      intros [= <- <-]. exact L.
Qed.

Lemma Valid_accepts_QUIT s c :
  Verb c = lit "QUIT" -> fst (Valid s c) = (true, None) ->
  HasSuffix c CRLF = true /\ Arg c = [].
Proof.
  intros V Ok. destruct (HasSuffix c CRLF) eqn:T.
  - split; [reflexivity|]. rewrite (Valid_QUIT s c T V) in Ok.
    destruct (str_eqb (Arg c) []) eqn:A; [now apply str_eqb_eq|discriminate].
  - rewrite (Valid_unterminated s c T) in Ok. discriminate.
Qed.

(** The [switch] returns from [Serve] only in the [case] of QUIT or when
    its reply cannot be flushed. *)
Lemma dispatch_returns env s envl c :
  round_flow (dispatch env s envl c) = Return ->
  Verb c = lit "QUIT" \/ FlushFails env (Flushes s) = true.
Proof.
  unfold dispatch, reply, Transmit, round_flow. cbv zeta.
  destruct (str_eqb (Verb c) (lit "QUIT")) eqn:Q;
    [left; now apply str_eqb_eq|].
  destruct (FlushFails env (Flushes s)); [now right|].
  repeat match goal with
  | |- context [if ?b then _ else _] => destruct b
  end; cbn [fst]; discriminate.
Qed.

(** The three ways out of a round. *)
Lemma iteration_returns env s envl :
  round_flow (iteration env s envl) = Return ->
  (exists n, FlushFails env n = true) \/
  Signal env (Polls s) = true \/
  (let l := fst (ReadString env (Reads s)) in
   HasSuffix l CRLF = true /\ Verb l = lit "QUIT" /\ Arg l = []).
Proof.
  rewrite iteration_cases. cbv zeta.
  destruct (FlushFails env (Flushes s)) eqn:F1; [left; eauto|].
  rewrite andb_false_r.
  destruct (Signal env (Polls s)); [now right; left|].
  set (l := fst (ReadString env (Reads s))).
  destruct (Valid_shape s l) as [(e & Q & _)|(s' & Q)]; rewrite Q;
    cbn [fst snd].
  - destruct (FlushFails env (Flushes (before_Valid env s))) eqn:F2;
      [left; eauto|discriminate].
  - intros R. apply dispatch_returns in R. destruct R as [V|F]; [|left; eauto].
    right. right.
    destruct (Valid_accepts_QUIT s l V) as [T A]; [now rewrite Q|]. auto.
Qed.

(** X22: [Serve] returns only by a QUIT, a failed flush or the shutdown
    signal.  When no flush ever fails, no shutdown is ever signalled and
    no line read is a terminated QUIT without argument, [Serve] is still
    running after any number of rounds: failed reads, refused and
    unknown commands never end the session, and there is no limit on
    them. *)
Theorem Serve_keeps_serving (env : Env) :
  (forall n, FlushFails env n = false) ->
  (forall n, Signal env n = false) ->
  (forall n, let l := fst (ReadString env n) in
     ~ (HasSuffix l CRLF = true /\ Verb l = lit "QUIT" /\ Arg l = [])) ->
  forall fuel s, Serve fuel env s = None.
Proof.
  intros F G Q.
  assert (I : forall s envl, round_flow (iteration env s envl) = Continue).
  { intros s envl. destruct (round_flow (iteration env s envl)) eqn:E;
      [reflexivity|].
    apply iteration_returns in E. destruct E as [[n E]|[E|E]].
    - rewrite F in E. discriminate.
    - rewrite G in E. discriminate.
    - now apply Q in E. }
  assert (L : forall fuel s envl, loop fuel env s envl = None).
  { induction fuel as [|fuel IH]; intros s envl; [reflexivity|]. simpl.
    specialize (I s envl).
    destruct (iteration env s envl) as [[[|] s1] envl1]; [apply IH|].
    discriminate. }
  intros fuel s. unfold Serve, serve_body, Transmit. rewrite F.
  now rewrite L.
Qed.

(** The theorem at a peer that has closed its side: every read fails,
    and the session answers each of them for ever. *)
Lemma Serve_keeps_serving_witness : Serve 1000 (script []) New = None.
Proof.
  apply (Serve_keeps_serving (script [])).
  - reflexivity.
  - reflexivity.
  - intros n. simpl. destruct n; intros (H & _); discriminate.
Defined.

Lemma sent_in_round_app env s envl :
  Sent (round_session (iteration env s envl)) =
  Sent s ++ sent_in_round env s envl.
Proof.
  unfold sent_in_round.
  destruct (iteration_wire env s envl) as (_ & more & E & _).
  now rewrite E, skipn_exact.
Qed.

Lemma skipn_self {A} (l : list A) : skipn (length l) l = [].
Proof. now apply skipn_all. Qed.

(** The flags behind the replies of a round, and the place of 221. *)
Lemma iteration_sequenced env s envl :
  let new := sent_in_round env s envl in
  (In (REPLY_354 ++ CRLF) new ->
   HeloFirst (Validity s) = true /\ MailFirst (Validity s) = true /\
   RcptFirst (Validity s) = true) /\
  (In (REPLY_250_RCPT ++ CRLF) new ->
   HeloFirst (Validity s) = true /\ MailFirst (Validity s) = true) /\
  (In (REPLY_221 ++ CRLF) new ->
   round_flow (iteration env s envl) = Return) /\
  (forall pre post, new = pre ++ (REPLY_221 ++ CRLF) :: post -> post = []).
Proof.
  unfold sent_in_round. rewrite iteration_cases. cbv zeta. unfold before_Valid.
  destruct (ReadString env (Reads s)) as [line rerr]. cbn [fst snd].
  assert (D : str_eqb (Verb line) (lit "DATA") = true ->
              fst (Valid s line) = (true, None) ->
              HeloFirst (Validity s) = true /\ MailFirst (Validity s) = true /\
              RcptFirst (Validity s) = true).
  { intros V. apply str_eqb_eq in V. now apply Valid_DATA_accepted. }
  assert (R : str_eqb (Verb line) (lit "RCPT TO:") = true ->
              fst (Valid s line) = (true, None) ->
              HeloFirst (Validity s) = true /\ MailFirst (Validity s) = true).
  { intros V Ok. apply str_eqb_eq in V.
    destruct (Valid_accepts_RCPT s line V Ok) as (_ & H & M & _). auto. }
  destruct (Valid_shape s line) as [(e & Q & I)|(s' & Q)]; rewrite Q in *;
    cbn [fst snd] in *;
    unfold dispatch, reply, Transmit, Println, round_session, round_flow;
    cbv zeta;
    try (unfold Valid_errors in I; simpl in I;
         repeat destruct I as [I|I]; try contradiction; subst e);
    repeat match goal with
    | |- context [if ?b then _ else _] => destruct b eqn:?
    end;
    cbn [fst snd andb Validity Flushes Sent Reads Polls Logged ConnClosed
         WgDone with_Validity];
    rewrite <- ?app_assoc, ?skipn_exact, ?skipn_self;
    (split; [|split; [|split]]);
    try (intros H; simpl in H;
         repeat match goal with
         | K : _ \/ _ |- _ => destruct K as [K|K]
         end;
         try contradiction; try discriminate;
         first [reflexivity | now apply D | now apply R]);
    intros pre post E;
    destruct pre as [|a [|b [|c pre]]]; simpl in E;
    try discriminate E; injection E; intros; subst; try reflexivity;
    discriminate.
Qed.

Lemma app_eq_mid {A} (x : A) l1 : forall l2 pre post,
  l1 ++ l2 = pre ++ x :: post -> ~ In x l1 ->
  exists pre', l2 = pre' ++ x :: post.
Proof.
  induction l1 as [|a l1 IH]; intros l2 pre post E N.
  - now exists pre.
  - destruct pre as [|b pre]; simpl in E; injection E as -> E.
    + exfalso. apply N. now left.
    + apply (IH l2 pre post E). intros I. apply N. now right.
Qed.

Lemma loop_bye_last env fuel : forall s envl s' envl',
  ~ In (REPLY_221 ++ CRLF) (Sent s) ->
  loop fuel env s envl = Some (s', envl') ->
  forall pre post, Sent s' = pre ++ (REPLY_221 ++ CRLF) :: post -> post = [].
Proof.
  induction fuel as [|fuel IH]; intros s envl s' envl' N; simpl; [discriminate|].
  pose proof (sent_in_round_app env s envl) as E.
  destruct (iteration_sequenced env s envl) as (_ & _ & B & L).
  destruct (iteration env s envl) as [[[|] s1] envl1] eqn:I;
    unfold round_session, round_flow in *; simpl in E, B.
  - apply IH. rewrite E. intros H. apply in_app_or in H.
    destruct H as [H|H]; [contradiction|]. apply B in H. discriminate.
  - intros [= <- <-] pre post S'. rewrite E in S'.
    destruct (app_eq_mid _ _ _ _ _ S' N) as (pre' & S''). eauto.
Qed.

(** X23: the replies follow the flags.  A round sends 354 only when
    greeting, sender and recipient were accepted before it, and the 250
    of a recipient only when greeting and sender were; a round that
    sends 221 is the last one, and in a run of [Serve] on a fresh
    session nothing is sent after 221. *)
Theorem replies_follow_the_flags :
  (forall env s envl,
     let new := sent_in_round env s envl in
     Sent (round_session (iteration env s envl)) = Sent s ++ new /\
     (In (REPLY_354 ++ CRLF) new ->
      HeloFirst (Validity s) = true /\ MailFirst (Validity s) = true /\
      RcptFirst (Validity s) = true) /\
     (In (REPLY_250_RCPT ++ CRLF) new ->
      HeloFirst (Validity s) = true /\ MailFirst (Validity s) = true) /\
     (In (REPLY_221 ++ CRLF) new ->
      round_flow (iteration env s envl) = Return)) /\
  (forall fuel env s envl,
     Serve fuel env New = Some (s, envl) ->
     forall pre post,
       Sent s = pre ++ (REPLY_221 ++ CRLF) :: post -> post = []).
Proof.
  split.
  - intros env s envl new. split; [apply sent_in_round_app|].
    destruct (iteration_sequenced env s envl) as (A & B & C & _). auto.
  - intros fuel env s envl. unfold Serve, serve_body, Transmit.
    cbn [Flushes Sent New Validity Reads Polls Logged ConnClosed WgDone].
    destruct (FlushFails env 0).
    + intros [= <- <-] pre post E. cbn in E. now destruct pre.
    + match goal with |- context [loop fuel env ?s0 ?e0] =>
        destruct (loop fuel env s0 e0) as [[s1 e1]|] eqn:L; [|discriminate]
      end.
      intros [= <- <-]. cbn [Sent Close].
      apply (loop_bye_last _ _ _ _ _ _) with (2 := L).
      simpl. intros [H|H]; [discriminate|contradiction].
Qed.

(** * The address that comes back *)






















(** * The shutdown signal ends the session *)






